(** * siggrep: a shallow embedding of [siggrep.cpp] and its properties

    The development follows the layout of the program: fixed-width integer
    casts, the nibble decoder [unhex], the hex-pattern compiler [parse_sig],
    the command-line parser [parse_args], the matcher [count_sig] built on
    [std::search], and the driver [wmain].  Definitions come first, the
    results about them afterwards. *)

From Stdlib Require Import String Ascii DecimalString.
From Stdlib Require Import ZArith Bool Lia List.
From Equations Require Import Equations.
Import ListNotations.

Open Scope Z_scope.

(** ** Machine integers

    [uint8_t] and [uint16_t] values are integers reduced modulo their width.
    [int] is the 32-bit two's-complement counter of [count_sig]. *)
Module CInt.

Definition uint8 (z : Z) : Z := z mod 256.
Definition uint16 (z : Z) : Z := z mod 65536.

(** [(char)ch]: the low eight bits read as a signed value. *)
Definition to_char (z : Z) : Z :=
  let u := z mod 256 in if u <? 128 then u else u - 256.

Definition INT_MAX : Z := 2147483647.

(** Two's-complement reduction to 32 bits. *)
Definition int_wrap (z : Z) : Z := (z + 2147483648) mod 4294967296 - 2147483648.

(** [++count] on an [int]. *)
Definition int_incr (count : Z) : Z := int_wrap (count + 1).

End CInt.
Import CInt.

(** ** Wide strings

    A NUL-terminated [wchar_t] string is represented by the list of the
    character codes that precede its terminator. *)
Module WStr.

Definition wchar := Z.
Definition wstring := list wchar.

(** Code of a character literal. *)
Definition wc (a : ascii) : wchar := Z.of_N (N_of_ascii a).

(** The wide literal [L"..."]. *)
Definition L (s : string) : wstring := map wc (list_ascii_of_string s).

(** [wcscmp]: lexicographic comparison, zero exactly on equal strings. *)
Fixpoint wcscmp (a b : wstring) : Z :=
  match a, b with
  | [], [] => 0
  | [], _ :: _ => -1
  | _ :: _, [] => 1
  | x :: a', y :: b' =>
      if x <? y then -1 else if y <? x then 1 else wcscmp a' b'
  end.

(** [isspace] of the C library in the default locale: space, and the
    control characters from horizontal tab to carriage return.  Every other
    code, also one beyond the range of [unsigned char], counts as not white
    space. *)
Definition isspace (c : wchar) : bool :=
  (c =? 32) || ((9 <=? c) && (c <=? 13)).

End WStr.
Import WStr.

(** ** Nibble decoder *)

(** The macro [TEST_RANGE(c, a, b, offset)]: [Some v] when it returns [v],
    [None] when control falls through to the next statement. *)
Definition TEST_RANGE (c a b offset : Z) : option Z :=
  if (uint8 c >=? uint8 a) && (uint8 c <=? uint8 b)
  then Some (uint8 (uint8 c - uint8 a + offset))
  else None.

Definition unhex (ch : Z) : Z :=
  if (ch >=? 0x80) || (ch <=? 0) then 0xFF
  else
    let c := to_char ch in
    match TEST_RANGE c (wc "0") (wc "9") 0x0 with
    | Some r => r
    | None =>
        match TEST_RANGE c (wc "a") (wc "f") 0xa with
        | Some r => r
        | None =>
            match TEST_RANGE c (wc "A") (wc "F") 0xA with
            | Some r => r
            | None => 0xFF
            end
        end
    end.

(** ** Signatures *)

(** [std::pair<uint8_t, bool>]: the byte and the "exact" flag. *)
Definition Cell : Type := Z * bool.

(** [std::vector<std::pair<uint8_t, bool>>]. *)
Definition Signature : Type := list Cell.

(** [sig.emplace_back(b, e)]. *)
Definition emplace_back (sig : Signature) (b : Z) (e : bool) : Signature :=
  sig ++ [(uint8 b, e)].

(** [sig.empty()]. *)
Definition empty {A : Type} (v : list A) : bool :=
  match v with [] => true | _ :: _ => false end.

(** ** The hex-pattern compiler *)
Module ParseSig.

Inductive State : Type :=
| AfterSpace
| AfterFirst
| AfterSecond
| AfterWildcard.

(** The [while] loop of [parse_sig] over the remaining characters.  [None]
    is one of the early [return {}] exits; [Some] carries the state and the
    vector with which the loop is left at the terminator. *)
Fixpoint loop (str : wstring) (state : State) (nibble : Z) (sig : Signature)
  : option (State * Signature) :=
  match str with
  | [] => Some (state, sig)
  | c :: str' =>
      match state with
      | AfterSpace =>
          let nibble := unhex c in
          if isspace c then loop str' state nibble sig
          else if c =? wc "?" then
            loop str' AfterWildcard nibble (emplace_back sig 0 false)
          else if negb (nibble =? 0xFF) then
            loop str' AfterFirst nibble sig
          else None
      | AfterFirst =>
          let second := unhex c in
          if negb (second =? 0xFF) then
            loop str' AfterSecond nibble
              (emplace_back sig (Z.lor (Z.shiftl nibble 4) second) true)
          else None
      | AfterSecond =>
          if isspace c then loop str' AfterSpace nibble sig
          else None
      | AfterWildcard =>
          if isspace c then loop str' AfterSpace nibble sig
          else if c =? wc "?" then loop str' state nibble sig
          else None
      end
  end.

(** [parse_sig]: the empty vector stands for failure. *)
Definition parse_sig (str : wstring) : Signature :=
  match loop str AfterSpace 0 [] with
  | None => []
  | Some (AfterFirst, _) => []
  | Some (_, sig) => sig
  end.

(** The results of the loop after which [parse_sig] returns the empty
    vector as a failure. *)
Definition gives_up (r : option (State * Signature)) : Prop :=
  match r with
  | None | Some (AfterFirst, _) => True
  | Some _ => False
  end.

End ParseSig.
Import ParseSig(parse_sig).

(** ** The matcher *)
Module Matcher.

(** The predicate handed to [std::search]. *)
Definition pred (curr : Z) (curr_pattern : Cell) : bool :=
  negb (snd curr_pattern) || (curr =? fst curr_pattern).

(** An iterator into the buffer is represented by the range from it to
    [end]; [begin == end] is the empty range.

    Inner loop of [std::search]: does the pattern match element by element
    at the front of the range? *)
Fixpoint match_here (l : list Z) (sig : Signature) {struct sig} : bool :=
  match sig with
  | [] => true
  | cp :: sig' =>
      match l with
      | [] => false
      | x :: l' => pred x cp && match_here l' sig'
      end
  end.

(** [std::search(begin, end, sig.begin(), sig.end(), pred)]: the first
    position where the pattern occurs, [end] when there is none. *)
Fixpoint search (l : list Z) (sig : Signature) : list Z :=
  if match_here l sig then l
  else match l with
       | [] => []
       | _ :: l' => search l' sig
       end.

Lemma search_length (l : list Z) (sig : Signature) :
  (length (search l sig) <= length l)%nat.
Proof.
  induction l as [|x l IH]; cbn [search].
  - destruct (match_here [] sig); cbn [length]; lia.
  - destruct (match_here (x :: l) sig); cbn [length]; lia.
Qed.

(** The [while (true)] loop of [count_sig], from the current [begin]:
    search; leave with [count] if the result is [end]; otherwise [++count],
    [++begin], and leave if that reached [end]. *)
Opaque int_incr.

Equations? count_loop (l : list Z) (sig : Signature) (count : Z) : Z
  by wf (length l) lt :=
  count_loop l sig count with Logic.inspect (search l sig) := {
    | exist _ [] _ => count
    | exist _ (_ :: begin') Hs with empty begin' := {
        | true => int_incr count
        | false => count_loop begin' sig (int_incr count) } }.
Proof.
  pose proof (search_length l sig) as Hlen.
  rewrite Hs in Hlen. cbn [length] in Hlen. lia.
Qed.

Transparent int_incr.

Definition count_sig (buf : list Z) (sig : Signature) : Z :=
  count_loop buf sig 0.

(** The number of positions of a range at which the pattern matches, the
    position of [end] itself left out. *)
Fixpoint hits (l : list Z) (sig : Signature) : nat :=
  match l with
  | [] => 0%nat
  | x :: l' => ((if match_here (x :: l') sig then 1 else 0) + hits l' sig)%nat
  end.

End Matcher.
Import Matcher(count_sig).

(** ** Command-line parsing *)

Record Arguments : Type := { file : wstring; sigs : list Signature }.

Module ParseArgs.

Inductive State : Type :=
| Type_
| ValuePattern
| ValueNarrow
| ValueWide
| ValueWideBE
| FileOnly
| Done.

(** [args.file = arg]. *)
Definition set_file (args : Arguments) (arg : wstring) : Arguments :=
  {| file := arg; sigs := sigs args |}.

(** [args.sigs.emplace_back(std::move(sig))]. *)
Definition push_sig (args : Arguments) (sig : Signature) : Arguments :=
  {| file := file args; sigs := sigs args ++ [sig] |}.

(** The loop of the [--narrow] branch, [None] being [return false]. *)
Fixpoint narrow_loop (str : wstring) (sig : Signature) : option Signature :=
  match str with
  | [] => Some sig
  | c :: str' =>
      let ushort := uint16 c in
      if ushort >? 0xFF then None
      else narrow_loop str' (emplace_back sig (uint8 ushort) true)
  end.

(** The loop of the [--wide] branch. *)
Fixpoint wide_loop (str : wstring) (sig : Signature) : Signature :=
  match str with
  | [] => sig
  | c :: str' =>
      let ushort := uint16 c in
      let sig := emplace_back sig (uint8 ushort) true in
      let sig := emplace_back sig (uint8 (Z.shiftr ushort 8)) true in
      wide_loop str' sig
  end.

(** The loop of the [--widebe] branch. *)
Fixpoint widebe_loop (str : wstring) (sig : Signature) : Signature :=
  match str with
  | [] => sig
  | c :: str' =>
      let ushort := uint16 c in
      let sig := emplace_back sig (uint8 (Z.shiftr ushort 8)) true in
      let sig := emplace_back sig (uint8 ushort) true in
      widebe_loop str' sig
  end.

(** One iteration of the [for] loop over [argv]; [None] is [return false]. *)
Definition step (state : State) (args : Arguments) (arg : wstring)
  : option (State * Arguments) :=
  match state with
  | Type_ =>
      if 0 =? wcscmp arg (L "--pattern") then Some (ValuePattern, args)
      else if 0 =? wcscmp arg (L "--narrow") then Some (ValueNarrow, args)
      else if 0 =? wcscmp arg (L "--wide") then Some (ValueWide, args)
      else if 0 =? wcscmp arg (L "--widebe") then Some (ValueWideBE, args)
      else if 0 =? wcscmp arg (L "--") then Some (FileOnly, args)
      else Some (Done, set_file args arg)
  | FileOnly => Some (Done, set_file args arg)
  | ValuePattern =>
      let sig := parse_sig arg in
      if empty sig then None
      else Some (Type_, push_sig args sig)
  | ValueNarrow =>
      match narrow_loop arg [] with
      | None => None
      | Some sig => Some (Type_, push_sig args sig)
      end
  | ValueWide => Some (Type_, push_sig args (wide_loop arg []))
  | ValueWideBE => Some (Type_, push_sig args (widebe_loop arg []))
  | Done => None
  end.

(** The [for] loop from the current argument on. *)
Fixpoint loop (state : State) (args : Arguments) (argv : list wstring)
  : option (State * Arguments) :=
  match argv with
  | [] => Some (state, args)
  | arg :: argv' =>
      match step state args arg with
      | None => None
      | Some (state', args') => loop state' args' argv'
      end
  end.

Definition is_Done (state : State) : bool :=
  match state with Done => true | _ => false end.

(** [parse_args]: [argv] is the whole argument vector, [argv[0]] included;
    [None] is the result [false], [Some args] the result [true] with the
    filled-in [Arguments]. *)
Definition parse_args (argv : list wstring) : option Arguments :=
  match loop Type_ {| file := []; sigs := [] |} (tl argv) with
  | None => None
  | Some (state, args) =>
      if empty (sigs args) then None
      else if negb (is_Done state) then None
      else Some args
  end.

End ParseArgs.
Import ParseArgs(parse_args).

(** ** The driver *)
Module Driver.

(** What a run leaves behind: the exit code and the two output streams. *)
Record Outcome : Type :=
  { exit_code : Z; stdout : string; stderr : wstring }.

Definition nl : wstring := [10].
Definition dquote : wstring := [34].

(** The usage text, with [argv[0]] in place of [%s]. *)
Definition usage (argv0 : wstring) : wstring :=
  L "Usage: " ++ argv0
    ++ L " [--(pattern|narrow|wide|widebe) <value>]+ [--] <file>" ++ nl
    ++ L "Options:" ++ nl
    ++ L "  --pattern <pattern>     IDA style pattern, like "
    ++ dquote ++ L "12 34 ? 78" ++ dquote ++ nl
    ++ L "  --narrow <string>       narrow / ascii string" ++ nl
    ++ L "  --wide <string>         wide / ucs2 little endian string" ++ nl
    ++ L "  --widebe <string>       wide / ucs2 big endian string" ++ nl
    ++ L "Output:" ++ nl
    ++ L "  Comma separated values of count of each signature found" ++ nl.

Definition read_failure (path : wstring) : wstring :=
  L "Failed opening or reading file " ++ path ++ nl.

(** The conversion [%d] of [printf]. *)
Definition printf_d (n : Z) : string := NilZero.string_of_int (Z.to_int n).

(** The output loop of [wmain]: index [i] runs over [0 .. sig_count - 1]
    and the text printed so far is threaded through. *)
Definition print_counts (data : list Z) (sigs : list Signature) : string :=
  let sig_count := length sigs in
  fold_left
    (fun (out : string) (i : nat) =>
       let count := count_sig data (nth i sigs []) in
       if (i =? sig_count - 1)%nat
       then (out ++ printf_d count ++ String "010" EmptyString)%string
       else (out ++ printf_d count ++ ",")%string)
    (seq 0 sig_count) EmptyString.

(** The line of counts, one element after the other. *)
Fixpoint render (counts : list Z) : string :=
  match counts with
  | [] => EmptyString
  | [c] => (printf_d c ++ String "010" EmptyString)%string
  | c :: rest => (printf_d c ++ "," ++ render rest)%string
  end.

Section Main.

(** [read_all]: the content of the file at a path, [None] when it cannot
    be opened or read in full. *)
Variable read_all : wstring -> option (list Z).

Definition wmain (argv : list wstring) : Outcome :=
  match parse_args argv with
  | None =>
      {| exit_code := 1; stdout := EmptyString;
         stderr := usage (hd [] argv) |}
  | Some args =>
      match read_all (file args) with
      | None =>
          {| exit_code := 2; stdout := EmptyString;
             stderr := read_failure (file args) |}
      | Some data =>
          {| exit_code := 0; stdout := print_counts data (sigs args);
             stderr := [] |}
      end
  end.

End Main.

End Driver.
Import Driver(wmain).

(** ** The specification's wording

    Definitions written after the prose of the specification, to be compared
    with the ones above. *)
Module Spec.

Import ParseSig.

(** Nibble Decoder: the value of one of [0-9], [a-f], [A-F]. *)
Definition hex_value (c : wchar) : option Z :=
  if (wc "0" <=? c) && (c <=? wc "9") then Some (c - wc "0")
  else if (wc "a" <=? c) && (c <=? wc "f") then Some (c - wc "a" + 10)
  else if (wc "A" <=? c) && (c <=? wc "F") then Some (c - wc "A" + 10)
  else None.

(** What a transition of the four-state machine does. *)
Inductive Action : Type :=
| Fail
| Go (next : State) (nibble : Z) (emit : list Cell).

(** The transition table, with the remembered nibble as a register. *)
Definition step (st : State) (nibble : Z) (c : wchar) : Action :=
  match st with
  | AfterSpace =>
      if isspace c then Go AfterSpace nibble []
      else if c =? wc "?" then Go AfterWildcard nibble [(0, false)]
      else match hex_value c with
           | Some v => Go AfterFirst v []
           | None => Fail
           end
  | AfterFirst =>
      match hex_value c with
      | Some v => Go AfterSecond nibble [(Z.lor (Z.shiftl nibble 4) v, true)]
      | None => Fail
      end
  | AfterSecond =>
      if isspace c then Go AfterSpace nibble [] else Fail
  | AfterWildcard =>
      if isspace c then Go AfterSpace nibble []
      else if c =? wc "?" then Go AfterWildcard nibble []
      else Fail
  end.

(** Running the machine: the final state and the cells emitted, in order. *)
Fixpoint run (st : State) (nibble : Z) (text : wstring)
  : option (State * list Cell) :=
  match text with
  | [] => Some (st, [])
  | c :: text' =>
      match step st nibble c with
      | Fail => None
      | Go st' nibble' emit =>
          match run st' nibble' text' with
          | None => None
          | Some (final, cells) => Some (final, emit ++ cells)
          end
      end
  end.

(** End of input: every state but [AfterFirst] accepts. *)
Definition accepting (st : State) : bool :=
  match st with AfterFirst => false | _ => true end.

(** The machine as a recogniser with output. *)
Definition machine (text : wstring) : option (list Cell) :=
  match run AfterSpace 0 text with
  | Some (final, cells) => if accepting final then Some cells else None
  | None => None
  end.

Definition is_hex (c : wchar) : bool :=
  match hex_value c with Some _ => true | None => false end.

(** A character the grammar has no use for. *)
Definition unrecognized (c : wchar) : bool :=
  negb (isspace c) && negb (c =? wc "?") && negb (is_hex c).

(** The text ends in a token that is a single hexadecimal digit. *)
Definition dangling (text : wstring) : bool :=
  match rev text with
  | [] => false
  | [d] => is_hex d
  | d :: w :: _ => is_hex d && isspace w
  end.

Inductive Encoding : Type := Narrow | WideLE | WideBE.

Definition low_byte (c : wchar) : Z := c mod 256.
Definition high_byte (c : wchar) : Z := (c / 256) mod 256.

(** [compile_literal(text, encoding)]. *)
Definition compile_literal (text : wstring) (encoding : Encoding)
  : option Signature :=
  match encoding with
  | Narrow =>
      if existsb (fun c => c >? 255) text then None
      else Some (map (fun c => (low_byte c, true)) text)
  | WideLE =>
      Some (flat_map (fun c => [(low_byte c, true); (high_byte c, true)]) text)
  | WideBE =>
      Some (flat_map (fun c => [(high_byte c, true); (low_byte c, true)]) text)
  end.

(** A match at position [p]: the signature fits into the buffer from [p]
    on, and every cell is a wildcard or equals the byte under it. *)
Definition match_at (buffer : list Z) (signature : Signature) (p : nat) : bool :=
  (p + length signature <=? length buffer)%nat
  && forallb
       (fun i =>
          let cell := nth i signature (0, false) in
          negb (snd cell) || (nth (p + i) buffer 0 =? fst cell))
       (seq 0 (length signature)).

(** Every start position of a match, overlapping ones included. *)
Definition occurrences (buffer : list Z) (signature : Signature) : list nat :=
  filter (match_at buffer signature) (seq 0 (S (length buffer))).

(** One signature on the command line: a flag and its value. *)
Inductive SigArg : Type :=
| Pattern (p : wstring)
| Literal (encoding : Encoding) (s : wstring).

Definition flag (a : SigArg) : wstring :=
  match a with
  | Pattern _ => L "--pattern"
  | Literal Narrow _ => L "--narrow"
  | Literal WideLE _ => L "--wide"
  | Literal WideBE _ => L "--widebe"
  end.

Definition value (a : SigArg) : wstring :=
  match a with Pattern p => p | Literal _ s => s end.

(** The arguments [flag value flag value ...] of a list of signatures. *)
Definition cmdline (l : list SigArg) : list wstring :=
  flat_map (fun a => [flag a; value a]) l.

(** The four flags that announce a signature. *)
Definition is_sig_flag (arg : wstring) : bool :=
  existsb (fun f => 0 =? wcscmp arg f)
    [L "--pattern"; L "--narrow"; L "--wide"; L "--widebe"].

(** The words with a meaning where an option is expected. *)
Definition is_keyword (arg : wstring) : bool :=
  is_sig_flag arg || (0 =? wcscmp arg (L "--")).

(** The comma-separated line of counts. *)
Definition counts_line (counts : list Z) : string :=
  (String.concat "," (map Driver.printf_d counts)
     ++ String "010" EmptyString)%string.

End Spec.

(** The signature a command-line entry stands for, as [parse_args] builds
    it; [None] when [parse_args] gives up on it. *)
Definition compile_arg (a : Spec.SigArg) : option Signature :=
  match a with
  | Spec.Pattern p =>
      let sig := parse_sig p in if empty sig then None else Some sig
  | Spec.Literal Spec.Narrow s => ParseArgs.narrow_loop s []
  | Spec.Literal Spec.WideLE s => Some (ParseArgs.wide_loop s [])
  | Spec.Literal Spec.WideBE s => Some (ParseArgs.widebe_loop s [])
  end.

Fixpoint compile_all (l : list Spec.SigArg) : option (list Signature) :=
  match l with
  | [] => Some []
  | a :: l' =>
      match compile_arg a, compile_all l' with
      | Some sig, Some sigs => Some (sig :: sigs)
      | _, _ => None
      end
  end.

(** A [wchar_t] of the target platform is a 16-bit code unit. *)
Definition wchar_ok (c : wchar) : Prop := 0 <= c < 65536.

(** A wildcard cell carries the byte zero. *)
Definition zero_if_wildcard (cell : Cell) : Prop :=
  snd cell = false -> fst cell = 0.

(** Two cells that differ at most in the byte of a wildcard. *)
Definition same_cell (a b : Cell) : Prop :=
  snd a = snd b /\ (snd a = true -> fst a = fst b).

(** ** Vocabulary of the further results *)

(** One round of the [while] loop of [parse_sig] as a function of the
    variables [state], [nibble], [sig] and the character read. *)
Definition advance (state : ParseSig.State) (nibble : Z) (sig : Signature)
           (c : wchar) : option (ParseSig.State * Z * Signature) :=
  match state with
  | ParseSig.AfterSpace =>
      if isspace c then Some (ParseSig.AfterSpace, unhex c, sig)
      else if c =? wc "?" then
        Some (ParseSig.AfterWildcard, unhex c, emplace_back sig 0 false)
      else if negb (unhex c =? 0xFF) then
        Some (ParseSig.AfterFirst, unhex c, sig)
      else None
  | ParseSig.AfterFirst =>
      if negb (unhex c =? 0xFF) then
        Some (ParseSig.AfterSecond, nibble,
              emplace_back sig (Z.lor (Z.shiftl nibble 4) (unhex c)) true)
      else None
  | ParseSig.AfterSecond =>
      if isspace c then Some (ParseSig.AfterSpace, nibble, sig) else None
  | ParseSig.AfterWildcard =>
      if isspace c then Some (ParseSig.AfterSpace, nibble, sig)
      else if c =? wc "?" then Some (ParseSig.AfterWildcard, nibble, sig)
      else None
  end.

(** The upper-case form of a character, for the letters [a] to [f]. *)
Definition upper (c : wchar) : wchar :=
  if (wc "a" <=? c) && (c <=? wc "f") then c - 32 else c.

(** The digit, in upper case, of a value from 0 to 15. *)
Definition hex_char (v : Z) : wchar :=
  if v <? 10 then wc "0" + v else wc "A" + (v - 10).

(** The text of one cell: two digits, or a question mark. *)
Definition token (cell : Cell) : wstring :=
  if snd cell then [hex_char (fst cell / 16); hex_char (fst cell mod 16)]
  else [wc "?"].

(** The text of a signature: its tokens with one space between them. *)
Fixpoint pattern_text (sig : Signature) : wstring :=
  match sig with
  | [] => []
  | [cell] => token cell
  | cell :: rest => token cell ++ wc " " :: pattern_text rest
  end.

(** A cell as the pattern compiler builds it: a byte, or a wildcard with
    zero. *)
Definition compiled_cell (cell : Cell) : Prop :=
  if snd cell then 0 <= fst cell < 256 else fst cell = 0.

(** A window of the buffer under a signature: cell by cell a wildcard or
    the same byte. *)
Definition covers (sig : Signature) (window : list Z) : Prop :=
  Forall2 (fun x cell => snd cell = false \/ x = fst cell) window sig.

(** The cells of a wide signature with the bytes of every character
    exchanged. *)
Fixpoint swap_pairs (sig : Signature) : Signature :=
  match sig with
  | a :: b :: rest => b :: a :: swap_pairs rest
  | _ => sig
  end.

(** How often a character occurs in a string. *)
Fixpoint count_char (a : ascii) (s : string) : nat :=
  match s with
  | EmptyString => 0%nat
  | String b s' => ((if Ascii.eqb a b then 1 else 0) + count_char a s')%nat
  end.

(** * Results *)

(** ** The counter of [count_sig] *)
Section IntFacts.

Lemma int_wrap_small (z : Z) :
  - 2147483648 <= z <= INT_MAX -> int_wrap z = z.
Proof.
  unfold int_wrap, INT_MAX. intros H.
  rewrite Z.mod_small by lia. lia.
Qed.

Lemma int_incr_wrap (z : Z) : int_incr (int_wrap z) = int_wrap (z + 1).
Proof.
  unfold int_incr, int_wrap.
  replace ((z + 2147483648) mod 4294967296 - 2147483648 + 1 + 2147483648)
    with ((z + 2147483648) mod 4294967296 + 1) by lia.
  rewrite Z.add_mod_idemp_l by lia.
  f_equal. f_equal. lia.
Qed.

Lemma iter_int_incr (n : nat) :
  Nat.iter n int_incr 0 = int_wrap (Z.of_nat n).
Proof.
  induction n as [|n IH].
  - reflexivity.
  - rewrite Nat.iter_succ, IH, int_incr_wrap. f_equal. lia.
Qed.

End IntFacts.

(** ** The matcher *)
Section MatcherFacts.

Import Matcher.

Lemma search_end (l : list Z) (sig : Signature) :
  search l sig = [] -> hits l sig = 0%nat.
Proof.
  induction l as [|x l IH]; cbn [search hits]; [reflexivity|].
  destruct (match_here (x :: l) sig); [discriminate|].
  intros H. rewrite (IH H). reflexivity.
Qed.

Lemma search_found (l : list Z) (sig : Signature) (y : Z) (rest : list Z) :
  search l sig = y :: rest -> hits l sig = S (hits rest sig).
Proof.
  induction l as [|x l IH]; cbn [search hits].
  - destruct (match_here [] sig); discriminate.
  - destruct (match_here (x :: l) sig).
    + intros H. injection H as _ ->. reflexivity.
    + intros H. rewrite (IH H). reflexivity.
Qed.

Lemma count_loop_hits (l : list Z) (sig : Signature) (count : Z) :
  count_loop l sig count = Nat.iter (hits l sig) int_incr count.
Proof.
  funelim (count_loop l sig count).
  - rewrite (search_end _ _ e). reflexivity.
  - rewrite (search_found _ _ _ _ Hs).
    destruct begin'; [|discriminate]. reflexivity.
  - rewrite (search_found _ _ _ _ Hs), Nat.iter_succ, <- Nat.iter_swap.
    assumption.
Qed.

Lemma count_sig_hits (buf : list Z) (sig : Signature) :
  count_sig buf sig = int_wrap (Z.of_nat (hits buf sig)).
Proof. unfold count_sig. rewrite count_loop_hits. apply iter_int_incr. Qed.

Lemma hits_le_length (l : list Z) (sig : Signature) :
  (hits l sig <= length l)%nat.
Proof.
  induction l as [|x l IH]; cbn [hits length]; [lia|].
  destruct (match_here (x :: l) sig); lia.
Qed.

Lemma count_sig_exact (buf : list Z) (sig : Signature) :
  Z.of_nat (length buf) <= INT_MAX ->
  count_sig buf sig = Z.of_nat (hits buf sig).
Proof.
  intros H. rewrite count_sig_hits. apply int_wrap_small.
  pose proof (hits_le_length buf sig). lia.
Qed.


(** *** Positions *)

Lemma skipn_nth {A : Type} (d : A) (l : list A) (p : nat) :
  (p < length l)%nat -> skipn p l = nth p l d :: skipn (S p) l.
Proof.
  revert p. induction l as [|x l IH]; intros p Hp; cbn [length] in Hp.
  - lia.
  - destruct p as [|p]; [reflexivity|].
    cbn [skipn nth]. apply IH. lia.
Qed.

Lemma forallb_pointwise {A : Type} (f g : A -> bool) (l : list A) :
  (forall a, f a = g a) -> forallb f l = forallb g l.
Proof.
  intros H. induction l as [|a l IH]; cbn [forallb]; [reflexivity|].
  rewrite H, IH. reflexivity.
Qed.

Lemma forallb_seq_succ (f : nat -> bool) (a n : nat) :
  forallb f (seq (S a) n) = forallb (fun i => f (S i)) (seq a n).
Proof.
  revert a. induction n as [|n IH]; intros a; cbn [seq forallb];
    [reflexivity|].
  rewrite IH. reflexivity.
Qed.

(** The inner loop of the search decides the specification's notion of a
    match at a position. *)
Lemma match_here_at (sig : Signature) (buf : list Z) (p : nat) :
  (p <= length buf)%nat ->
  match_here (skipn p buf) sig = Spec.match_at buf sig p.
Proof.
  unfold Spec.match_at.
  revert p. induction sig as [|cp sig IH]; intros p Hp.
  - cbn [match_here length seq forallb]. rewrite andb_true_r.
    symmetry. apply Nat.leb_le. lia.
  - destruct (Nat.eq_dec p (length buf)) as [->|Hne].
    + rewrite skipn_all. cbn [match_here length].
      symmetry. apply andb_false_intro1. apply Nat.leb_gt. lia.
    + rewrite (skipn_nth 0) by lia. cbn [match_here length seq forallb].
      rewrite forallb_seq_succ, IH by lia.
      rewrite Nat.add_0_r. unfold pred. cbn [nth].
      rewrite (forallb_pointwise
                 (fun i => negb (snd (nth i sig (0, false)))
                           || (nth (p + S i) buf 0 =? fst (nth i sig (0, false))))
                 (fun i => negb (snd (nth i sig (0, false)))
                           || (nth (S p + i) buf 0 =? fst (nth i sig (0, false)))))
        by (intros i; rewrite Nat.add_succ_r; reflexivity).
      replace (p + S (length sig) <=? length buf)%nat
        with (S p + length sig <=? length buf)%nat
        by (rewrite Nat.add_succ_r; reflexivity).
      destruct (negb (snd cp) || (nth p buf 0 =? fst cp));
        destruct (S p + length sig <=? length buf)%nat; reflexivity.
Qed.

Lemma filter_map_length {A B : Type} (f : B -> bool) (g : A -> B) (l : list A) :
  length (filter f (map g l)) = length (filter (fun a => f (g a)) l).
Proof.
  induction l as [|a l IH]; cbn [map filter]; [reflexivity|].
  destruct (f (g a)); cbn [length]; rewrite IH; reflexivity.
Qed.

Lemma hits_positions (buf : list Z) (sig : Signature) :
  hits buf sig
  = length (filter (fun p => match_here (skipn p buf) sig)
              (seq 0 (length buf))).
Proof.
  induction buf as [|x buf IH]; [reflexivity|].
  cbn [hits length seq filter skipn]. rewrite <- seq_shift, IH.
  destruct (match_here (x :: buf) sig); cbn [length];
    rewrite filter_map_length; reflexivity.
Qed.

Lemma match_at_fits (buf : list Z) (sig : Signature) (p : nat) :
  Spec.match_at buf sig p = true -> (p + length sig <= length buf)%nat.
Proof.
  unfold Spec.match_at. intros H.
  apply andb_prop in H as [H _]. apply Nat.leb_le. exact H.
Qed.

(** For a non-empty pattern the loop visits every occurrence. *)
Lemma hits_occurrences (buf : list Z) (sig : Signature) :
  sig <> [] -> hits buf sig = length (Spec.occurrences buf sig).
Proof.
  intros Hne. unfold Spec.occurrences.
  rewrite hits_positions, seq_S, filter_app. cbn [Nat.add filter].
  assert (Spec.match_at buf sig (length buf) = false) as ->.
  { destruct (Spec.match_at buf sig (length buf)) eqn:E; [|reflexivity].
    apply match_at_fits in E. destruct sig; [congruence|].
    cbn [length] in E. lia. }
  rewrite length_app, Nat.add_0_r. f_equal.
  apply filter_ext_in. intros p Hp. apply in_seq in Hp.
  apply match_here_at. lia.
Qed.

(** *** The search, by position *)

Lemma search_nil (sig : Signature) : search [] sig = [].
Proof. cbn. destruct (match_here [] sig); reflexivity. Qed.

Lemma search_none (l : list Z) (sig : Signature) :
  (forall q, (q <= length l)%nat -> match_here (skipn q l) sig = false) ->
  search l sig = [].
Proof.
  induction l as [|x l IH]; intros H; [apply search_nil|].
  pose proof (H 0%nat ltac:(lia)) as H0. cbn [skipn] in H0.
  cbn [search]. rewrite H0.
  apply IH. intros q Hq. apply (H (S q)). cbn [length]. lia.
Qed.

Lemma search_first (l : list Z) (sig : Signature) (p : nat) :
  match_here (skipn p l) sig = true ->
  (forall q, (q < p)%nat -> match_here (skipn q l) sig = false) ->
  search l sig = skipn p l.
Proof.
  revert l. induction p as [|p IH]; intros l Hp Hq.
  - cbn [skipn] in *. destruct l; cbn [search]; rewrite Hp; reflexivity.
  - destruct l as [|x l].
    + cbn [skipn]. apply search_nil.
    + pose proof (Hq 0%nat ltac:(lia)) as H0. cbn [skipn] in H0, Hp.
      cbn [search skipn]. rewrite H0.
      apply IH; [exact Hp|].
      intros q Hlt. apply (Hq (S q)). lia.
Qed.

Lemma count_loop_unfold (l : list Z) (sig : Signature) (count : Z) :
  count_loop l sig count
  = match search l sig with
    | [] => count
    | _ :: begin' => count_loop begin' sig (int_incr count)
    end.
Proof.
  rewrite count_loop_hits.
  destruct (search l sig) as [|y rest] eqn:E.
  - rewrite (search_end _ _ E). reflexivity.
  - rewrite (search_found _ _ _ _ E), Nat.iter_succ, <- Nat.iter_swap.
    symmetry. apply count_loop_hits.
Qed.

Lemma match_here_short (l : list Z) (sig : Signature) :
  (length l < length sig)%nat -> match_here l sig = false.
Proof.
  revert l. induction sig as [|cp sig IH]; intros l H; cbn [length] in H.
  - lia.
  - destruct l as [|x l]; [reflexivity|].
    cbn [match_here]. rewrite IH by (cbn [length] in H; lia).
    apply andb_false_r.
Qed.

Lemma hits_short (l : list Z) (sig : Signature) :
  (length l < length sig)%nat -> hits l sig = 0%nat.
Proof.
  induction l as [|x l IH]; intros H; [reflexivity|].
  cbn [hits]. rewrite (match_here_short _ _ H).
  apply IH. cbn [length] in H. lia.
Qed.

Lemma hits_empty_sig (l : list Z) : hits l [] = length l.
Proof.
  induction l as [|x l IH]; [reflexivity|].
  cbn [hits match_here length]. rewrite IH. reflexivity.
Qed.

Lemma pred_same_cell (x : Z) (a b : Cell) :
  same_cell a b -> pred x a = pred x b.
Proof.
  unfold same_cell, pred. destruct a as [va ea], b as [vb eb]; cbn.
  intros [-> H]. destruct eb; [rewrite H by reflexivity|]; reflexivity.
Qed.

Lemma match_here_same_cells (sig sig' : Signature) :
  Forall2 same_cell sig sig' ->
  forall l, match_here l sig = match_here l sig'.
Proof.
  induction 1 as [|a b sig sig' Hab _ IH]; intros l; [reflexivity|].
  cbn [match_here]. destruct l as [|x l]; [reflexivity|].
  rewrite (pred_same_cell _ _ _ Hab), IH. reflexivity.
Qed.

Lemma hits_same_cells (sig sig' : Signature) (l : list Z) :
  Forall2 same_cell sig sig' -> hits l sig = hits l sig'.
Proof.
  intros H. induction l as [|x l IH]; [reflexivity|].
  cbn [hits]. rewrite (match_here_same_cells _ _ H), IH. reflexivity.
Qed.

Lemma same_cell_refl (a : Cell) : same_cell a a.
Proof. split; auto. Qed.

Lemma same_cells_refl (sig : Signature) : Forall2 same_cell sig sig.
Proof. induction sig; constructor; auto using same_cell_refl. Qed.

(** C1: for a non-empty signature the counting loop scans from left to
    right: it leaves the count alone when no position of the remaining
    range matches, and on the first match, at position [p], it increments
    the count and goes on with the range that starts at [p + 1].  Hence
    overlapping occurrences are all counted: the result is the number of
    match positions (as an [int]), and the signature [41 41] occurs three
    times in the buffer [41 41 41 41]. *)
Theorem count_sig_overlapping (buf : list Z) (sig : Signature) :
  sig <> [] ->
  (forall l count,
      (forall q, (q <= length l)%nat -> Spec.match_at l sig q = false) ->
      count_loop l sig count = count)
  /\ (forall l count p,
        Spec.match_at l sig p = true ->
        (forall q, (q < p)%nat -> Spec.match_at l sig q = false) ->
        count_loop l sig count
        = count_loop (skipn (S p) l) sig (int_incr count))
  /\ count_sig buf sig
     = int_wrap (Z.of_nat (length (Spec.occurrences buf sig)))
  /\ (Z.of_nat (length buf) <= INT_MAX ->
      count_sig buf sig = Z.of_nat (length (Spec.occurrences buf sig)))
  /\ count_sig [0x41; 0x41; 0x41; 0x41] [(0x41, true); (0x41, true)] = 3.
Proof.
  intros Hne. repeat split.
  - intros l count H. rewrite count_loop_unfold, search_none; [reflexivity|].
    intros q Hq. rewrite match_here_at by exact Hq. auto.
  - intros l count p Hp Hq.
    assert (p < length l)%nat as Hlt.
    { apply match_at_fits in Hp. destruct sig; [congruence|].
      cbn [length] in Hp. lia. }
    rewrite count_loop_unfold, (search_first l sig p).
    + rewrite (skipn_nth 0 l p Hlt). reflexivity.
    + rewrite match_here_at by lia. exact Hp.
    + intros q Hlq. rewrite match_here_at by lia. auto.
  - rewrite count_sig_hits, hits_occurrences by exact Hne. reflexivity.
  - intros Hlen. rewrite count_sig_exact, hits_occurrences; auto.
Qed.

Lemma count_sig_overlapping_witness :
  [(0x41, true); (0x41, true)] <> []
  /\ count_sig [0x41; 0x41; 0x41; 0x41] [(0x41, true); (0x41, true)]
     = Z.of_nat
         (length (Spec.occurrences [0x41; 0x41; 0x41; 0x41]
                    [(0x41, true); (0x41, true)])).
Proof.
  split; [discriminate|].
  destruct (count_sig_overlapping [0x41; 0x41; 0x41; 0x41]
              [(0x41, true); (0x41, true)]) as (_ & _ & _ & H & _);
    [discriminate|].
  apply H. vm_compute. discriminate.
Defined.

(** C6: a signature longer than the buffer is counted zero times. *)
Theorem count_sig_longer (buf : list Z) (sig : Signature) :
  (length sig > length buf)%nat -> count_sig buf sig = 0.
Proof.
  intros H. rewrite count_sig_hits, hits_short by lia. reflexivity.
Qed.

Lemma count_sig_longer_witness :
  (length [(0x41, true); (0, false)] > length [0x41])%nat
  /\ count_sig [0x41] [(0x41, true); (0, false)] = 0.
Proof.
  split; [cbn; lia|].
  apply (count_sig_longer [0x41] [(0x41, true); (0, false)]). cbn. lia.
Defined.

End MatcherFacts.

(** ** The nibble decoder *)
Section UnhexFacts.

Lemma unhex_hex_value (c : wchar) :
  unhex c = match Spec.hex_value c with Some v => v | None => 0xFF end.
Proof.
  unfold unhex, Spec.hex_value.
  change (wc "0") with 48. change (wc "9") with 57.
  change (wc "a") with 97. change (wc "f") with 102.
  change (wc "A") with 65. change (wc "F") with 70.
  destruct (Z.geb_spec c 0x80) as [Hhi|Hhi]; cbn [orb].
  { repeat match goal with
           | |- context [(?a <=? ?b)] => destruct (Z.leb_spec a b); try lia
           end; reflexivity. }
  destruct (Z.leb_spec c 0) as [Hlo|Hlo].
  { repeat match goal with
           | |- context [(?a <=? ?b)] => destruct (Z.leb_spec a b); try lia
           end; reflexivity. }
  assert (to_char c = c) as ->.
  { unfold to_char. rewrite Z.mod_small by lia.
    destruct (Z.ltb_spec c 128); lia. }
  unfold TEST_RANGE, uint8.
  rewrite (Z.mod_small c 256) by lia.
  change (48 mod 256) with 48. change (97 mod 256) with 97.
  change (65 mod 256) with 65.
  change (57 mod 256) with 57. change (102 mod 256) with 102.
  change (70 mod 256) with 70.
  rewrite !Z.geb_leb.
  repeat match goal with
         | |- context [(?a <=? ?b)] =>
             destruct (Z.leb_spec a b); try lia; cbn [andb]
         end;
    try reflexivity; rewrite Z.mod_small by lia; lia.
Qed.

Lemma hex_value_range (c : wchar) (v : Z) :
  Spec.hex_value c = Some v -> 0 <= v < 16.
Proof.
  unfold Spec.hex_value.
  change (wc "0") with 48. change (wc "9") with 57.
  change (wc "a") with 97. change (wc "f") with 102.
  change (wc "A") with 65. change (wc "F") with 70.
  repeat match goal with
         | |- context [(?a <=? ?b)] =>
             destruct (Z.leb_spec a b); cbn [andb]
         end;
    intros Hv; inversion Hv; lia.
Qed.

Lemma unhex_digit (c : wchar) (v : Z) :
  Spec.hex_value c = Some v -> unhex c = v /\ (unhex c =? 0xFF) = false.
Proof.
  intros H. pose proof (hex_value_range _ _ H).
  rewrite unhex_hex_value, H. split; [reflexivity|].
  apply Z.eqb_neq. lia.
Qed.

Lemma unhex_other (c : wchar) :
  Spec.hex_value c = None -> (unhex c =? 0xFF) = true.
Proof. intros H. rewrite unhex_hex_value, H. reflexivity. Qed.

(** A hexadecimal digit is neither white space nor the question mark. *)
Lemma hex_digit_plain (c : wchar) (v : Z) :
  Spec.hex_value c = Some v -> isspace c = false /\ (c =? wc "?") = false.
Proof.
  unfold Spec.hex_value, isspace.
  change (wc "0") with 48. change (wc "9") with 57.
  change (wc "a") with 97. change (wc "f") with 102.
  change (wc "A") with 65. change (wc "F") with 70.
  change (wc "?") with 63.
  intros H.
  assert (48 <= c <= 102) as Hc.
  { revert H.
    repeat match goal with
           | |- context [(?a <=? ?b)] =>
               destruct (Z.leb_spec a b); cbn [andb]
           end; intros Hv; try discriminate; lia. }
  assert (c <> 63) as Hq.
  { intros ->. discriminate H. }
  split.
  - apply orb_false_intro; [apply Z.eqb_neq; lia|].
    apply andb_false_intro2. apply Z.leb_gt. lia.
  - apply Z.eqb_neq. exact Hq.
Qed.

Lemma space_not_hex (c : wchar) :
  isspace c = true -> Spec.hex_value c = None.
Proof.
  intros Hs. destruct (Spec.hex_value c) as [v|] eqn:E; [|reflexivity].
  apply hex_digit_plain in E as [E _]. congruence.
Qed.

End UnhexFacts.

(** ** The hex-pattern compiler and the four-state machine *)
Section ParseSigFacts.

Import ParseSig.

(** The loop of [parse_sig] simulates the machine.  The nibble variable of
    the code is overwritten at every character read in [AfterSpace]; it
    agrees with the machine's register whenever it is read, that is in
    [AfterFirst]. *)
Lemma loop_run (str : wstring) :
  forall (st : State) (nibble reg : Z) (sig : Signature),
    (st = AfterFirst -> nibble = reg /\ 0 <= reg < 16) ->
    loop str st nibble sig
    = match Spec.run st reg str with
      | None => None
      | Some (final, cells) => Some (final, sig ++ cells)
      end.
Proof.
  induction str as [|c str IH]; intros st nibble reg sig Hreg.
  - cbn. rewrite app_nil_r. reflexivity.
  - destruct st; cbn [loop Spec.run Spec.step].
    + destruct (isspace c) eqn:Hs.
      { rewrite (IH AfterSpace (unhex c) reg sig) by discriminate.
        destruct (Spec.run AfterSpace reg str) as [[f cells]|]; reflexivity. }
      destruct (c =? wc "?") eqn:Hq.
      { rewrite (IH AfterWildcard (unhex c) reg _) by discriminate.
        destruct (Spec.run AfterWildcard reg str) as [[f cells]|];
          [|reflexivity].
        unfold emplace_back. rewrite <- app_assoc. reflexivity. }
      destruct (Spec.hex_value c) as [v|] eqn:Hv.
      * destruct (unhex_digit _ _ Hv) as [Hu ->]. cbn [negb].
        rewrite (IH AfterFirst (unhex c) v sig).
        -- destruct (Spec.run AfterFirst v str) as [[f cells]|]; reflexivity.
        -- intros _. split; [exact Hu|]. exact (hex_value_range _ _ Hv).
      * rewrite (unhex_other _ Hv). reflexivity.
    + destruct (Hreg eq_refl) as [-> Hrange].
      destruct (Spec.hex_value c) as [v|] eqn:Hv.
      * destruct (unhex_digit _ _ Hv) as [Hu ->]. cbn [negb].
        pose proof (hex_value_range _ _ Hv) as Hvr.
        rewrite (IH AfterSecond reg reg _) by discriminate.
        destruct (Spec.run AfterSecond reg str) as [[f cells]|];
          [|reflexivity].
        unfold emplace_back. rewrite <- app_assoc, Hu.
        assert (uint8 (Z.lor (Z.shiftl reg 4) v) = Z.lor (Z.shiftl reg 4) v)
          as ->; [|reflexivity].
        unfold uint8. apply Z.mod_small.
        assert (0 <= Z.lor (Z.shiftl reg 4) v < 2 ^ 8); [|lia].
        assert (0 <= Z.shiftl reg 4 < 2 ^ 8).
        { rewrite Z.shiftl_mul_pow2 by lia. lia. }
        split; [apply Z.lor_nonneg; lia|].
        destruct (Z.eq_dec (Z.lor (Z.shiftl reg 4) v) 0) as [->|Hnz]; [lia|].
        apply Z.log2_lt_pow2; [pose proof (Z.lor_nonneg (Z.shiftl reg 4) v); lia|].
        rewrite Z.log2_lor by lia.
        apply Z.max_lub_lt.
        -- destruct (Z.eq_dec (Z.shiftl reg 4) 0) as [->|]; [cbn; lia|].
           apply Z.log2_lt_pow2; lia.
        -- destruct (Z.eq_dec v 0) as [->|]; [cbn; lia|].
           apply Z.log2_lt_pow2; lia.
      * rewrite (unhex_other _ Hv). reflexivity.
    + destruct (isspace c); [|reflexivity].
      rewrite (IH AfterSpace nibble reg sig) by discriminate.
      destruct (Spec.run AfterSpace reg str) as [[f cells]|]; reflexivity.
    + destruct (isspace c).
      { rewrite (IH AfterSpace nibble reg sig) by discriminate.
        destruct (Spec.run AfterSpace reg str) as [[f cells]|]; reflexivity. }
      destruct (c =? wc "?"); [|reflexivity].
      rewrite (IH AfterWildcard nibble reg sig) by discriminate.
      destruct (Spec.run AfterWildcard reg str) as [[f cells]|]; reflexivity.
Qed.

(** [parse_sig] returns the machine's cells when the machine accepts and
    the empty vector when it does not. *)
Lemma parse_sig_machine (text : wstring) :
  parse_sig text
  = match Spec.machine text with Some cells => cells | None => [] end.
Proof.
  unfold parse_sig, Spec.machine.
  rewrite (loop_run text AfterSpace 0 0 []) by discriminate.
  destruct (Spec.run AfterSpace 0 text) as [[[] cells]|]; reflexivity.
Qed.

(** One round of the loop either returns early or goes on with the rest. *)
Lemma loop_cons (c : wchar) (str : wstring) (st : State) (nibble : Z)
      (sig : Signature) :
  loop (c :: str) st nibble sig = None
  \/ exists st' nibble' sig',
      loop (c :: str) st nibble sig = loop str st' nibble' sig'.
Proof.
  destruct st; cbn [loop];
    repeat match goal with
           | |- context [if ?b then _ else _] => destruct b
           end; eauto.
Qed.

Lemma loop_unrecognized (c : wchar) (str : wstring) :
  Spec.unrecognized c = true -> In c str ->
  forall st nibble sig, loop str st nibble sig = None.
Proof.
  unfold Spec.unrecognized, Spec.is_hex. intros Hc.
  apply andb_prop in Hc as [Hc Hhex]. apply andb_prop in Hc as [Hs Hq].
  apply negb_true_iff in Hs, Hq.
  destruct (Spec.hex_value c) eqn:Hv; [discriminate|].
  apply unhex_other in Hv.
  induction str as [|x str IH]; intros Hin st nibble sig; [contradiction|].
  destruct Hin as [->|Hin].
  - destruct st; cbn [loop]; rewrite ?Hs, ?Hq, ?Hv; reflexivity.
  - destruct (loop_cons x str st nibble sig) as [E|(st' & n' & sig' & E)];
      rewrite E; auto.
Qed.

Lemma gives_up_empty (text : wstring) :
  gives_up (loop text AfterSpace 0 []) -> parse_sig text = [].
Proof.
  unfold parse_sig.
  destruct (loop text AfterSpace 0 []) as [[[] sig]|]; cbn;
    intros H; try reflexivity; contradiction.
Qed.

Lemma loop_single_digit (d : wchar) (nibble : Z) (sig : Signature) :
  Spec.is_hex d = true -> gives_up (loop [d] AfterSpace nibble sig).
Proof.
  unfold Spec.is_hex. destruct (Spec.hex_value d) as [v|] eqn:Hv;
    [intros _|discriminate].
  destruct (hex_digit_plain _ _ Hv) as [Hs Hq].
  destruct (unhex_digit _ _ Hv) as [_ Hu].
  cbn [loop]. rewrite Hs, Hq, Hu. exact I.
Qed.

Lemma loop_space_digit (pre : wstring) (w d : wchar) :
  isspace w = true -> Spec.is_hex d = true ->
  forall st nibble sig, gives_up (loop (pre ++ [w; d]) st nibble sig).
Proof.
  intros Hw Hd. induction pre as [|x pre IH]; intros st nibble sig.
  - pose proof (unhex_other _ (space_not_hex _ Hw)) as Hu.
    unfold Spec.is_hex in Hd.
    destruct (Spec.hex_value d) as [v|] eqn:Hv; [|discriminate].
    destruct (hex_digit_plain _ _ Hv) as [Hds Hdq].
    destruct (unhex_digit _ _ Hv) as [_ Hdu].
    cbn [app]. destruct st; cbn [loop];
      rewrite ?Hw, ?Hu, ?Hds, ?Hdq, ?Hdu; exact I.
  - cbn [app].
    destruct (loop_cons x (pre ++ [w; d]) st nibble sig)
      as [E|(st' & n' & sig' & E)]; rewrite E; [exact I|apply IH].
Qed.

Lemma loop_dangling (text : wstring) :
  Spec.dangling text = true -> gives_up (loop text AfterSpace 0 []).
Proof.
  unfold Spec.dangling. intros H.
  rewrite <- (rev_involutive text).
  destruct (rev text) as [|d [|w r]]; [discriminate| |].
  - apply loop_single_digit, H.
  - apply andb_prop in H as [Hd Hw].
    cbn [rev]. rewrite <- app_assoc. apply loop_space_digit; assumption.
Qed.

(** A question mark read in [AfterWildcard] changes nothing. *)
Lemma loop_wildcard_run (n : nat) (rest : wstring) (nibble : Z)
      (sig : Signature) :
  loop (repeat (wc "?") n ++ rest) AfterWildcard nibble sig
  = loop rest AfterWildcard nibble sig.
Proof.
  induction n as [|n IH]; [reflexivity|].
  cbn [repeat app loop]. exact IH.
Qed.

Lemma run_wildcards_zero (text : wstring) :
  forall st reg final cells,
    Spec.run st reg text = Some (final, cells) ->
    Forall zero_if_wildcard cells.
Proof.
  induction text as [|c text IH]; intros st reg final cells H.
  - cbn in H. injection H as _ <-. constructor.
  - cbn [Spec.run] in H.
    destruct (Spec.step st reg c) as [|st' reg' emit] eqn:Hstep;
      [discriminate|].
    destruct (Spec.run st' reg' text) as [[f cs]|] eqn:Hrun; [|discriminate].
    injection H as _ <-. apply Forall_app. split; [|eauto].
    destruct st; cbn [Spec.step] in Hstep;
      repeat match type of Hstep with
             | context [if ?b then _ else _] => destruct b
             | context [match ?o with Some _ => _ | None => _ end] =>
                 destruct o
             end;
      inversion Hstep; subst; repeat constructor; discriminate.
Qed.

Lemma parse_sig_wildcards_zero (text : wstring) :
  Forall zero_if_wildcard (parse_sig text).
Proof.
  rewrite parse_sig_machine. unfold Spec.machine.
  destruct (Spec.run AfterSpace 0 text) as [[final cells]|] eqn:E;
    [|constructor].
  destruct (Spec.accepting final); [|constructor].
  exact (run_wildcards_zero _ _ _ _ _ E).
Qed.

(** C2, amended: [parse_sig] runs the four-state machine
    [AfterSpace]/[AfterFirst]/[AfterSecond]/[AfterWildcard] and returns the
    cells the machine emitted when the final state is [AfterSpace],
    [AfterSecond] or [AfterWildcard], and the empty vector otherwise.  The
    empty vector is how it reports failure, so compilation succeeds exactly
    when the machine accepts and has emitted at least one cell.  Question
    marks that follow a question mark emit nothing: a run of them gives one
    wildcard cell. *)
Theorem parse_sig_state_machine (text : wstring) :
  parse_sig text
  = match Spec.machine text with Some cells => cells | None => [] end
  /\ (empty (parse_sig text) = false
      <-> exists cells, Spec.machine text = Some cells /\ cells <> [])
  /\ (forall n rest nibble sig,
        loop (repeat (wc "?") n ++ rest) AfterWildcard nibble sig
        = loop rest AfterWildcard nibble sig)
  /\ (forall n, parse_sig (repeat (wc "?") (S n)) = [(0, false)]).
Proof.
  split; [apply parse_sig_machine|]. split; [|split].
  - rewrite parse_sig_machine.
    destruct (Spec.machine text) as [[|cell cells]|]; cbn [empty]; split.
    + discriminate.
    + intros (cells & H & Hne). injection H as <-. congruence.
    + intros _. eexists. split; [reflexivity|discriminate].
    + reflexivity.
    + discriminate.
    + intros (cells & H & _). discriminate.
  - intros n rest nibble sig. apply loop_wildcard_run.
  - intros n. unfold parse_sig. cbn [repeat].
    change (loop (wc "?" :: repeat (wc "?") n) AfterSpace 0 [])
      with (loop (repeat (wc "?") n) AfterWildcard (unhex (wc "?"))
              (emplace_back [] 0 false)).
    rewrite <- (app_nil_r (repeat (wc "?") n)), loop_wildcard_run.
    reflexivity.
Qed.

(** The machine accepts the empty text, in [AfterSpace] and with no cell
    emitted, but [parse_sig] reports a failure for it. *)
Lemma parse_sig_fails_on_accepted_empty_text :
  ~ (empty (parse_sig (L "")) = false
     <-> exists cells, Spec.machine (L "") = Some cells).
Proof.
  intros [_ H].
  assert (empty (parse_sig (L "")) = false) as E
      by (apply H; eexists; reflexivity).
  discriminate E.
Qed.

End ParseSigFacts.

(** ** Wildcard bytes *)
Section WildcardFacts.

(** C9: the byte stored in a wildcard cell is never compared.  Two
    signatures that agree on the flags and on the bytes of the exact cells
    are counted alike in every buffer; in particular the byte of one
    wildcard cell may be replaced by any other.  The hex-pattern compiler
    stores zero in every wildcard cell. *)
Theorem wildcard_byte_ignored (buf : list Z) (sig sig' : Signature) :
  Forall2 same_cell sig sig' ->
  count_sig buf sig = count_sig buf sig'
  /\ (forall pre post b b',
        count_sig buf (pre ++ (b, false) :: post)
        = count_sig buf (pre ++ (b', false) :: post))
  /\ (forall text, Forall zero_if_wildcard (parse_sig text)).
Proof.
  intros H. split; [|split].
  - rewrite !count_sig_hits, (hits_same_cells _ _ _ H). reflexivity.
  - intros pre post b b'. rewrite !count_sig_hits.
    rewrite (hits_same_cells (pre ++ (b, false) :: post)
               (pre ++ (b', false) :: post)); [reflexivity|].
    apply Forall2_app; [apply same_cells_refl|].
    constructor; [|apply same_cells_refl].
    split; [reflexivity|discriminate].
  - apply parse_sig_wildcards_zero.
Qed.

Lemma wildcard_byte_ignored_witness :
  Forall2 same_cell [(0, false); (0x41, true)] [(0x99, false); (0x41, true)]
  /\ count_sig [0x07; 0x41; 0x41] [(0, false); (0x41, true)]
     = count_sig [0x07; 0x41; 0x41] [(0x99, false); (0x41, true)].
Proof.
  assert (Forall2 same_cell [(0, false); (0x41, true)]
            [(0x99, false); (0x41, true)]) as H.
  { repeat constructor; cbn; discriminate. }
  split; [exact H|].
  apply (wildcard_byte_ignored [0x07; 0x41; 0x41] _ _ H).
Defined.

End WildcardFacts.

(** ** Literal signatures *)
Section LiteralFacts.

Import ParseArgs.

Lemma low_of_ushort (c : Z) : uint8 (uint8 (uint16 c)) = Spec.low_byte c.
Proof.
  unfold uint8, uint16, Spec.low_byte.
  rewrite Z.mod_mod by lia.
  change 65536 with (256 * 256).
  rewrite Z.rem_mul_r by lia.
  rewrite (Z.mul_comm 256), Z.mod_add by lia.
  apply Z.mod_mod. lia.
Qed.

Lemma high_of_ushort (c : Z) :
  uint8 (uint8 (Z.shiftr (uint16 c) 8)) = Spec.high_byte c.
Proof.
  unfold uint8, uint16, Spec.high_byte.
  rewrite Z.mod_mod by lia.
  rewrite Z.shiftr_div_pow2 by lia.
  change (2 ^ 8) with 256. change 65536 with (256 * 256).
  rewrite Z.rem_mul_r by lia.
  rewrite Z.add_comm, (Z.mul_comm 256), Z.div_add_l by lia.
  rewrite (Z.div_small (c mod 256)) by (apply Z.mod_pos_bound; lia).
  rewrite Z.add_0_r. apply Z.mod_mod. lia.
Qed.

Lemma narrow_loop_cells (str : wstring) :
  Forall wchar_ok str ->
  forall sig,
    narrow_loop str sig
    = if existsb (fun c => c >? 255) str then None
      else Some (sig ++ map (fun c => (Spec.low_byte c, true)) str).
Proof.
  induction 1 as [|c str Hc _ IH]; intros sig.
  - cbn. rewrite app_nil_r. reflexivity.
  - cbn [narrow_loop existsb map].
    assert (uint16 c = c) as Hu by (apply Z.mod_small; exact Hc).
    rewrite Hu. change 0xFF with 255.
    destruct (c >? 255); [reflexivity|]. cbn [orb].
    rewrite IH. unfold emplace_back.
    rewrite <- Hu at 1. rewrite low_of_ushort, <- app_assoc. reflexivity.
Qed.

Lemma wide_loop_cells (str : wstring) :
  forall sig,
    wide_loop str sig
    = sig ++ flat_map
               (fun c => [(Spec.low_byte c, true); (Spec.high_byte c, true)])
               str.
Proof.
  induction str as [|c str IH]; intros sig.
  - cbn. rewrite app_nil_r. reflexivity.
  - cbn [wide_loop flat_map]. rewrite IH. unfold emplace_back.
    rewrite low_of_ushort, high_of_ushort, <- !app_assoc. reflexivity.
Qed.

Lemma widebe_loop_cells (str : wstring) :
  forall sig,
    widebe_loop str sig
    = sig ++ flat_map
               (fun c => [(Spec.high_byte c, true); (Spec.low_byte c, true)])
               str.
Proof.
  induction str as [|c str IH]; intros sig.
  - cbn. rewrite app_nil_r. reflexivity.
  - cbn [widebe_loop flat_map]. rewrite IH. unfold emplace_back.
    rewrite low_of_ushort, high_of_ushort, <- !app_assoc. reflexivity.
Qed.

Lemma flat_map_pair_length {A B : Type} (f g : A -> B) (l : list A) :
  length (flat_map (fun a => [f a; g a]) l) = (2 * length l)%nat.
Proof. induction l as [|a l IH]; cbn [flat_map length app]; lia. Qed.

Lemma flat_map_pair_Forall {A B : Type} (P : B -> Prop) (f g : A -> B)
      (l : list A) :
  (forall a, P (f a) /\ P (g a)) ->
  Forall P (flat_map (fun a => [f a; g a]) l).
Proof.
  intros H. induction l as [|a l IH]; cbn [flat_map app];
    [constructor|].
  destruct (H a). repeat constructor; assumption.
Qed.

(** C4: on 16-bit characters the three literal loops of [parse_args] are
    [compile_literal].  Narrow gives one exact cell per character, holding
    its low byte, and fails exactly when some code point exceeds 255;
    WideLE gives two exact cells per character, low byte then high byte;
    WideBE gives two, high byte then low byte.  No cell is a wildcard. *)
Theorem compile_literal_cells (text : wstring) :
  Forall wchar_ok text ->
  narrow_loop text [] = Spec.compile_literal text Spec.Narrow
  /\ Some (wide_loop text []) = Spec.compile_literal text Spec.WideLE
  /\ Some (widebe_loop text []) = Spec.compile_literal text Spec.WideBE
  /\ (narrow_loop text [] = None <-> Exists (fun c => c > 255) text)
  /\ (forall sig,
        narrow_loop text [] = Some sig ->
        length sig = length text /\ Forall (fun cell => snd cell = true) sig)
  /\ (length (wide_loop text []) = (2 * length text)%nat
      /\ Forall (fun cell => snd cell = true) (wide_loop text []))
  /\ (length (widebe_loop text []) = (2 * length text)%nat
      /\ Forall (fun cell => snd cell = true) (widebe_loop text [])).
Proof.
  intros Hok.
  pose proof (narrow_loop_cells text Hok []) as Hn. cbn [app] in Hn.
  pose proof (wide_loop_cells text []) as Hw. cbn [app] in Hw.
  pose proof (widebe_loop_cells text []) as Hb. cbn [app] in Hb.
  repeat split.
  - exact Hn.
  - rewrite Hw. reflexivity.
  - rewrite Hb. reflexivity.
  - intros Hnone. rewrite Hn in Hnone.
    destruct (existsb (fun c => c >? 255) text) eqn:E; [|discriminate].
    apply existsb_exists in E as (c & Hin & Hc).
    apply Exists_exists. exists c. split; [exact Hin|]. lia.
  - intros Hex. rewrite Hn.
    apply Exists_exists in Hex as (c & Hin & Hc).
    assert (existsb (fun c => c >? 255) text = true) as ->;
      [|reflexivity].
    apply existsb_exists. exists c. split; [exact Hin|]. lia.
  - rewrite Hn in H.
    destruct (existsb (fun c => c >? 255) text); [discriminate|].
    injection H as <-. apply length_map.
  - rewrite Hn in H.
    destruct (existsb (fun c => c >? 255) text); [discriminate|].
    injection H as <-. apply Forall_map, Forall_forall. reflexivity.
  - rewrite Hw. apply flat_map_pair_length.
  - rewrite Hw. apply flat_map_pair_Forall. intros; split; reflexivity.
  - rewrite Hb. apply flat_map_pair_length.
  - rewrite Hb. apply flat_map_pair_Forall. intros; split; reflexivity.
Qed.

Lemma compile_literal_cells_witness :
  Forall wchar_ok (L "AB")
  /\ narrow_loop (L "AB") [] = Spec.compile_literal (L "AB") Spec.Narrow.
Proof.
  assert (Forall wchar_ok (L "AB")) as H.
  { repeat constructor; cbn; lia. }
  split; [exact H|].
  apply (compile_literal_cells (L "AB") H).
Defined.

End LiteralFacts.

(** ** Command-line parsing *)
Section ParseArgsFacts.

Import ParseArgs.

Lemma wcscmp_eq (a b : wstring) : (0 =? wcscmp a b) = true <-> a = b.
Proof.
  revert b. induction a as [|x a IH]; intros [|y b]; cbn [wcscmp].
  - split; reflexivity.
  - split; discriminate.
  - split; discriminate.
  - destruct (Z.ltb_spec x y); [split; [discriminate|intros [=]; lia]|].
    destruct (Z.ltb_spec y x); [split; [discriminate|intros [=]; lia]|].
    rewrite IH. assert (x = y) as -> by lia.
    split; [intros ->; reflexivity|intros [=]; assumption].
Qed.

Lemma loop_app (pre post : list wstring) :
  forall st args,
    loop st args (pre ++ post)
    = match loop st args pre with
      | None => None
      | Some (st', args') => loop st' args' post
      end.
Proof.
  induction pre as [|x pre IH]; intros st args; [reflexivity|].
  cbn [app loop].
  destruct (step st args x) as [[st' args']|]; [apply IH|reflexivity].
Qed.

(** Reading a signature flag and its value where an option is expected. *)
Lemma loop_sig_arg (a : Spec.SigArg) (rest : list wstring) (args : Arguments) :
  loop Type_ args (Spec.flag a :: Spec.value a :: rest)
  = match compile_arg a with
    | None => None
    | Some sig => loop Type_ (push_sig args sig) rest
    end.
Proof.
  destruct a as [p|[] s]; cbn [loop Spec.flag Spec.value compile_arg].
  - change (step Type_ args (L "--pattern")) with (Some (ValuePattern, args)).
    cbn [step]. destruct (empty (parse_sig p)); reflexivity.
  - change (step Type_ args (L "--narrow")) with (Some (ValueNarrow, args)).
    cbn [step]. destruct (narrow_loop s []); reflexivity.
  - change (step Type_ args (L "--wide")) with (Some (ValueWide, args)).
    reflexivity.
  - change (step Type_ args (L "--widebe")) with (Some (ValueWideBE, args)).
    reflexivity.
Qed.

Lemma loop_cmdline (specs : list Spec.SigArg) (rest : list wstring) :
  forall args,
    loop Type_ args (Spec.cmdline specs ++ rest)
    = match compile_all specs with
      | None => None
      | Some new =>
          loop Type_ {| file := file args; sigs := sigs args ++ new |} rest
      end.
Proof.
  induction specs as [|a specs IH]; intros args.
  - cbn. rewrite app_nil_r. destruct args; reflexivity.
  - change (Spec.cmdline (a :: specs) ++ rest)
      with (Spec.flag a :: Spec.value a :: (Spec.cmdline specs ++ rest)).
    rewrite loop_sig_arg. cbn [compile_all].
    destruct (compile_arg a) as [sig|]; [|reflexivity].
    rewrite IH. destruct (compile_all specs) as [new|]; [|reflexivity].
    unfold push_sig. cbn [file sigs]. rewrite <- app_assoc. reflexivity.
Qed.

(** Where an option is expected, a word that is no keyword is the file. *)
Lemma step_file (args : Arguments) (arg : wstring) :
  Spec.is_keyword arg = false ->
  step Type_ args arg = Some (Done, set_file args arg).
Proof.
  unfold Spec.is_keyword, Spec.is_sig_flag. cbn [existsb step]. intros H.
  repeat match goal with
         | |- context [if ?b then _ else _] =>
             destruct b; [cbn [orb] in H; discriminate H|]
         end.
  reflexivity.
Qed.

Lemma step_sig_flag (args : Arguments) (arg : wstring) :
  Spec.is_sig_flag arg = true ->
  exists st, step Type_ args arg = Some (st, args)
             /\ st <> Type_ /\ st <> FileOnly /\ st <> Done.
Proof.
  unfold Spec.is_sig_flag. cbn [existsb step]. intros H.
  destruct (0 =? wcscmp arg (L "--pattern"));
    [eexists; repeat split; discriminate|].
  destruct (0 =? wcscmp arg (L "--narrow"));
    [eexists; repeat split; discriminate|].
  destruct (0 =? wcscmp arg (L "--wide"));
    [eexists; repeat split; discriminate|].
  destruct (0 =? wcscmp arg (L "--widebe"));
    [eexists; repeat split; discriminate|].
  discriminate H.
Qed.

(** After the value of a flag an option is expected again. *)
Lemma step_value (st : State) (args : Arguments) (arg : wstring) :
  st <> Type_ -> st <> FileOnly -> st <> Done ->
  step st args arg = None
  \/ exists args', step st args arg = Some (Type_, args').
Proof.
  destruct st; intros H1 H2 H3; try congruence; cbn [step].
  - destruct (empty (parse_sig arg)); eauto.
  - destruct (narrow_loop arg []); eauto.
  - eauto.
  - eauto.
Qed.

(** Only the word [--], read where an option is expected, leads to
    [FileOnly]. *)
Lemma loop_FileOnly (pre : list wstring) :
  forall st args args',
    loop st args pre = Some (FileOnly, args') ->
    (pre = [] /\ st = FileOnly) \/ exists pre', pre = pre' ++ [L "--"].
Proof.
  induction pre as [|x pre IH] using rev_ind; intros st args args' H.
  - cbn in H. injection H as -> _. auto.
  - right. rewrite loop_app in H.
    destruct (loop st args pre) as [[st1 args1]|]; [|discriminate].
    cbn [loop] in H.
    destruct (step st1 args1 x) as [[st2 args2]|] eqn:E; [|discriminate].
    injection H as -> _.
    destruct st1; cbn [step] in E;
      repeat match type of E with
             | context [if ?b then _ else _] => destruct b eqn:?
             | context [match ?o with Some _ => _ | None => _ end] =>
                 destruct o
             end;
      try discriminate.
    exists pre. f_equal. f_equal. apply wcscmp_eq. assumption.
Qed.

(** Without a signature flag no signature is collected. *)
Lemma loop_no_sig_flag (rest : list wstring) :
  (forall a, In a rest -> Spec.is_sig_flag a = false) ->
  forall st args,
    (st = Type_ \/ st = FileOnly \/ st = Done) -> sigs args = [] ->
    match loop st args rest with
    | None => True
    | Some (_, args') => sigs args' = []
    end.
Proof.
  induction rest as [|x rest IH]; intros Hno st args Hst Hsigs.
  - exact Hsigs.
  - cbn [loop].
    assert (Spec.is_sig_flag x = false) as Hx by (apply Hno; left; reflexivity).
    assert (forall a, In a rest -> Spec.is_sig_flag a = false) as Hrest
        by (intros a Ha; apply Hno; right; exact Ha).
    destruct Hst as [->|[->| ->]]; cbn [step].
    + unfold Spec.is_sig_flag in Hx. cbn [existsb] in Hx.
      destruct (0 =? wcscmp x (L "--pattern")); [discriminate Hx|].
      destruct (0 =? wcscmp x (L "--narrow")); [discriminate Hx|].
      destruct (0 =? wcscmp x (L "--wide")); [discriminate Hx|].
      destruct (0 =? wcscmp x (L "--widebe")); [discriminate Hx|].
      destruct (0 =? wcscmp x (L "--")); apply IH; auto.
    + apply IH; auto.
    + exact I.
Qed.

End ParseArgsFacts.

(** ** The driver *)
Section DriverFacts.

Import ParseArgs Driver.

Lemma append_nil_r (s : string) : (s ++ "")%string = s.
Proof. induction s as [|a s IH]; cbn; [|rewrite IH]; reflexivity. Qed.

Lemma append_assoc (s t u : string) :
  ((s ++ t) ++ u)%string = (s ++ (t ++ u))%string.
Proof. induction s as [|a s IH]; cbn; [|rewrite IH]; reflexivity. Qed.

Lemma render_counts_line (counts : list Z) :
  counts <> [] -> render counts = Spec.counts_line counts.
Proof.
  unfold Spec.counts_line.
  induction counts as [|c counts IH]; [congruence|]. intros _.
  destruct counts as [|c' counts]; [reflexivity|].
  cbn [render map String.concat] in *.
  rewrite IH by discriminate. rewrite !append_assoc. reflexivity.
Qed.

(** The output loop from index [k] on. *)
Lemma print_loop (data : list Z) (sigs : list Signature) (m : nat) :
  forall (k : nat) (out : string),
    (k + m = length sigs)%nat ->
    fold_left
      (fun (out : string) (i : nat) =>
         let count := count_sig data (nth i sigs []) in
         if (i =? length sigs - 1)%nat
         then (out ++ printf_d count ++ String "010" EmptyString)%string
         else (out ++ printf_d count ++ ",")%string)
      (seq k m) out
    = (out ++ render (map (count_sig data) (skipn k sigs)))%string.
Proof.
  induction m as [|m IH]; intros k out Hk.
  - rewrite skipn_all2 by lia. cbn. symmetry. apply append_nil_r.
  - cbn [seq fold_left].
    rewrite IH by lia. rewrite (@skipn_nth Signature [] sigs k) by lia.
    cbn [map]. destruct m as [|m].
    + assert (k = length sigs - 1)%nat as Hlast by lia.
      rewrite <- Hlast, Nat.eqb_refl.
      rewrite skipn_all2 by lia. cbn [map render]. apply append_nil_r.
    + assert ((k =? length sigs - 1)%nat = false) as ->
          by (apply Nat.eqb_neq; lia).
      rewrite (@skipn_nth Signature [] sigs (S k)) by lia. cbn [map render].
      rewrite !append_assoc. reflexivity.
Qed.

Lemma print_counts_line (data : list Z) (sigs : list Signature) :
  sigs <> [] ->
  print_counts data sigs = Spec.counts_line (map (count_sig data) sigs).
Proof.
  intros Hne. unfold print_counts.
  etransitivity;
    [exact (print_loop data sigs (length sigs) 0 EmptyString eq_refl)|].
  cbn [skipn append]. apply render_counts_line.
  destruct sigs; [congruence|discriminate].
Qed.

Lemma parse_args_sigs (argv : list wstring) (args : Arguments) :
  parse_args argv = Some args -> sigs args <> [].
Proof.
  unfold parse_args.
  destruct (loop Type_ _ (tl argv)) as [[st a]|]; [|discriminate].
  destruct (sigs a) eqn:E; cbn [empty]; [discriminate|].
  destruct (negb (is_Done st)); [discriminate|].
  intros [= <-]. rewrite E. discriminate.
Qed.

(** A well-formed command line: signatures, then the file. *)
Lemma parse_args_cmdline (prog : wstring) (specs : list Spec.SigArg)
      (new : list Signature) (path : wstring) :
  specs <> [] -> compile_all specs = Some new ->
  Spec.is_keyword path = false ->
  parse_args (prog :: Spec.cmdline specs ++ [path])
  = Some {| file := path; sigs := new |}.
Proof.
  intros Hne Hc Hpath. unfold parse_args. cbn [tl].
  rewrite loop_cmdline, Hc. cbn [loop file sigs app].
  rewrite step_file by exact Hpath. cbn [set_file sigs file].
  destruct new as [|sig new]; [|reflexivity].
  destruct specs as [|a specs]; [congruence|].
  cbn [compile_all] in Hc.
  destruct (compile_arg a); [|discriminate].
  destruct (compile_all specs); discriminate.
Qed.

End DriverFacts.

(** ** The program as a whole *)
Section ProgramFacts.

Import ParseArgs Driver.

Variable read_all : wstring -> option (list Z).

Lemma wmain_usage (argv : list wstring) :
  parse_args argv = None ->
  wmain read_all argv
  = {| exit_code := 1; stdout := EmptyString;
       stderr := usage (hd [] argv) |}.
Proof. intros H. unfold wmain. rewrite H. reflexivity. Qed.

Lemma wmain_success (argv : list wstring) (args : Arguments) (data : list Z) :
  parse_args argv = Some args -> read_all (file args) = Some data ->
  wmain read_all argv
  = {| exit_code := 0;
       stdout := Spec.counts_line (map (count_sig data) (sigs args));
       stderr := [] |}.
Proof.
  intros Hp Hr. unfold wmain. rewrite Hp, Hr.
  rewrite print_counts_line by exact (parse_args_sigs _ _ Hp).
  reflexivity.
Qed.

(** C3: evaluation of [parse_args] on a literal flag with an empty value.
    The zero-length signature is kept, although the [--pattern] branch
    refuses one. *)
Theorem parse_args_keeps_empty_signature :
  parse_args [L "siggrep"; L "--narrow"; L ""; L "file.bin"]
  = Some {| file := L "file.bin"; sigs := [[]] |}
  /\ parse_args [L "siggrep"; L "--wide"; L ""; L "file.bin"]
     = Some {| file := L "file.bin"; sigs := [[]] |}
  /\ parse_args [L "siggrep"; L "--widebe"; L ""; L "file.bin"]
     = Some {| file := L "file.bin"; sigs := [[]] |}
  /\ (forall p sig,
        compile_arg (Spec.Pattern p) = Some sig -> (1 <= length sig)%nat).
Proof.
  repeat split.
  intros p sig. cbn [compile_arg].
  destruct (parse_sig p) as [|cell cells]; cbn [empty]; [discriminate|].
  intros [= <-]. cbn [length]. lia.
Qed.

(** C5: [parse_sig] returns the empty vector for the empty text, for a text
    whose last token is a single hexadecimal digit, and for a text with an
    unrecognized character anywhere; so it does for ["1"], [""] and
    ["zz"].  The empty vector is a hard error: [parse_args] returns false
    on it, and the run ends with the usage text and exit code 1. *)
Theorem parse_sig_failures :
  (forall text,
      text = [] \/ Spec.dangling text = true
      \/ (exists c, In c text /\ Spec.unrecognized c = true) ->
      parse_sig text = [])
  /\ parse_sig (L "1") = []
  /\ parse_sig (L "") = []
  /\ parse_sig (L "zz") = []
  /\ (forall text args,
        parse_sig text = [] -> step ValuePattern args text = None)
  /\ (forall prog pre text post args,
        parse_sig text = [] ->
        loop Type_ {| file := []; sigs := [] |} pre
        = Some (ValuePattern, args) ->
        wmain read_all (prog :: pre ++ text :: post)
        = {| exit_code := 1; stdout := EmptyString; stderr := usage prog |}).
Proof.
  split; [|split; [|split; [|split; [|split]]]]; try reflexivity.
  - intros text [->|[H|(c & Hin & Hc)]].
    + reflexivity.
    + apply gives_up_empty, loop_dangling, H.
    + unfold parse_sig.
      rewrite (loop_unrecognized c text Hc Hin). reflexivity.
  - intros text args H. cbn [step]. rewrite H. reflexivity.
  - intros prog pre text post args H Hpre.
    apply (wmain_usage (prog :: pre ++ text :: post)).
    unfold parse_args. cbn [tl]. rewrite loop_app, Hpre.
    cbn [loop step]. rewrite H. reflexivity.
Qed.

(** C8: on a successful run the standard output is one line: the counts of
    the signatures, in the order of the command line, in decimal, separated
    by commas, with a newline at the end and no comma before it. *)
Theorem wmain_prints_counts (prog : wstring) (specs : list Spec.SigArg)
        (new : list Signature) (path : wstring) (data : list Z) :
  specs <> [] -> compile_all specs = Some new ->
  Spec.is_keyword path = false -> read_all path = Some data ->
  wmain read_all (prog :: Spec.cmdline specs ++ [path])
  = {| exit_code := 0;
       stdout := Spec.counts_line (map (count_sig data) new);
       stderr := [] |}
  /\ (forall argv args,
        parse_args argv = Some args -> read_all (file args) = Some data ->
        wmain read_all argv
        = {| exit_code := 0;
             stdout := Spec.counts_line (map (count_sig data) (sigs args));
             stderr := [] |})
  /\ Spec.counts_line [1; 1] = ("1,1" ++ String "010" EmptyString)%string
  /\ Spec.counts_line [2; 0; 5] = ("2,0,5" ++ String "010" EmptyString)%string.
Proof.
  intros Hne Hc Hpath Hr. repeat split.
  - apply (wmain_success _ {| file := path; sigs := new |} data).
    + apply parse_args_cmdline; assumption.
    + exact Hr.
  - intros argv args. apply wmain_success.
Qed.

(** C7, amended: when argument parsing fails the program prints the usage
    text to the standard error, prints nothing else and exits with code 1.
    Parsing fails when no signature flag occurs, when the file argument is
    missing, and when a signature flag is the last argument and so has no
    value.  An unrecognized flag is not detected as such: where an option
    is expected, any word other than the four signature flags and [--] is
    taken as the file path, so that parsing succeeds when it is the last
    argument and fails only when another argument follows it. *)
Theorem usage_errors (prog : wstring) :
  (forall argv,
      parse_args argv = None ->
      wmain read_all argv
      = {| exit_code := 1; stdout := EmptyString;
           stderr := usage (hd [] argv) |})
  /\ (forall rest,
        (forall a, In a rest -> Spec.is_sig_flag a = false) ->
        parse_args (prog :: rest) = None)
  /\ (forall specs,
        parse_args (prog :: Spec.cmdline specs) = None
        /\ parse_args (prog :: Spec.cmdline specs ++ [L "--"]) = None)
  /\ (forall pre f,
        Spec.is_sig_flag f = true ->
        (forall pre', pre <> pre' ++ [L "--"]) ->
        parse_args (prog :: pre ++ [f]) = None)
  /\ (forall specs new x,
        specs <> [] -> compile_all specs = Some new ->
        Spec.is_keyword x = false ->
        parse_args (prog :: Spec.cmdline specs ++ [x])
        = Some {| file := x; sigs := new |}
        /\ forall y rest,
            parse_args (prog :: Spec.cmdline specs ++ x :: y :: rest) = None).
Proof.
  split; [exact wmain_usage|]. split; [|split; [|split]].
  - intros rest Hno. unfold parse_args. cbn [tl].
    pose proof (loop_no_sig_flag rest Hno Type_ {| file := []; sigs := [] |}
                  (or_introl eq_refl) eq_refl) as H.
    destruct (loop Type_ _ rest) as [[st a]|]; [|reflexivity].
    rewrite H. reflexivity.
  - intros specs. unfold parse_args. cbn [tl]. split.
    + rewrite <- (app_nil_r (Spec.cmdline specs)), loop_cmdline.
      destruct (compile_all specs) as [new|]; [|reflexivity].
      cbn [loop]. destruct (empty _); reflexivity.
    + rewrite loop_cmdline.
      destruct (compile_all specs) as [new|]; [|reflexivity].
      change (loop Type_ ?a [L "--"]) with (Some (FileOnly, a)).
      cbv beta iota. destruct (empty _); reflexivity.
  - intros pre f Hf Hpre. unfold parse_args. cbn [tl].
    rewrite loop_app.
    destruct (loop Type_ _ pre) as [[st args]|] eqn:E; [|reflexivity].
    cbn [loop].
    destruct (step_sig_flag args f Hf) as (st' & Hst' & H1 & H2 & H3).
    destruct st.
    + rewrite Hst'. destruct (empty _); [reflexivity|].
      destruct st'; try congruence; reflexivity.
    + destruct (step_value ValuePattern args f) as [->|[args' ->]];
        try discriminate; [reflexivity|].
      destruct (empty _); reflexivity.
    + destruct (step_value ValueNarrow args f) as [->|[args' ->]];
        try discriminate; [reflexivity|].
      destruct (empty _); reflexivity.
    + destruct (step_value ValueWide args f) as [->|[args' ->]];
        try discriminate; [reflexivity|].
      destruct (empty _); reflexivity.
    + destruct (step_value ValueWideBE args f) as [->|[args' ->]];
        try discriminate; [reflexivity|].
      destruct (empty _); reflexivity.
    + apply loop_FileOnly in E as [[_ E]|[pre' E]]; [discriminate|].
      exfalso. exact (Hpre pre' E).
    + reflexivity.
  - intros specs new x Hne Hc Hx. split.
    + apply parse_args_cmdline; assumption.
    + intros y rest. unfold parse_args. cbn [tl].
      rewrite loop_cmdline, Hc. cbn [loop].
      rewrite step_file by exact Hx. reflexivity.
Qed.

(** C10, amended: for a buffer whose length fits the [int] counter, that is
    of at most [INT_MAX] bytes, the empty signature is counted
    [len(buffer)] times: it matches at every position and the loop stops
    when the resume position reaches the end of the buffer.  An empty value
    of [--narrow], [--wide] or [--widebe] puts such a signature into the
    set, and the run prints the length of the file. *)
Theorem count_sig_empty_signature (buf : list Z) :
  Z.of_nat (length buf) <= INT_MAX ->
  count_sig buf [] = Z.of_nat (length buf)
  /\ (forall prog path,
        Spec.is_keyword path = false ->
        parse_args [prog; L "--narrow"; L ""; path]
        = Some {| file := path; sigs := [[]] |}
        /\ parse_args [prog; L "--wide"; L ""; path]
           = Some {| file := path; sigs := [[]] |}
        /\ parse_args [prog; L "--widebe"; L ""; path]
           = Some {| file := path; sigs := [[]] |})
  /\ (forall prog path,
        Spec.is_keyword path = false -> read_all path = Some buf ->
        wmain read_all [prog; L "--narrow"; L ""; path]
        = {| exit_code := 0;
             stdout := Spec.counts_line [Z.of_nat (length buf)];
             stderr := [] |}).
Proof.
  intros Hlen.
  assert (count_sig buf [] = Z.of_nat (length buf)) as Hcount.
  { rewrite count_sig_exact by exact Hlen.
    rewrite hits_empty_sig. reflexivity. }
  assert (forall prog path enc,
             Spec.is_keyword path = false ->
             parse_args (prog :: Spec.cmdline [Spec.Literal enc (L "")]
                           ++ [path])
             = Some {| file := path; sigs := [[]] |}) as Hparse.
  { intros prog path enc Hpath.
    apply parse_args_cmdline; [discriminate| |exact Hpath].
    destruct enc; reflexivity. }
  split; [exact Hcount|]. split.
  - intros prog path Hpath. repeat split.
    + exact (Hparse prog path Spec.Narrow Hpath).
    + exact (Hparse prog path Spec.WideLE Hpath).
    + exact (Hparse prog path Spec.WideBE Hpath).
  - intros prog path Hpath Hr.
    rewrite (wmain_success _ {| file := path; sigs := [[]] |} buf).
    + cbn [sigs map]. rewrite Hcount. reflexivity.
    + exact (Hparse prog path Spec.Narrow Hpath).
    + exact Hr.
Qed.

End ProgramFacts.

Lemma wmain_prints_counts_witness :
  wmain (fun _ => Some [0x41; 0x42])
    [L "siggrep"; L "--pattern"; L "41"; L "--pattern"; L "42"; L "AB.bin"]
  = {| Driver.exit_code := 0;
       Driver.stdout := ("1,1" ++ String "010" EmptyString)%string;
       Driver.stderr := [] |}.
Proof.
  refine (proj1 (wmain_prints_counts (fun _ => Some [0x41; 0x42])
                   (L "siggrep") [Spec.Pattern (L "41"); Spec.Pattern (L "42")]
                   [[(0x41, true)]; [(0x42, true)]] (L "AB.bin") [0x41; 0x42]
                   _ _ _ _)).
  - discriminate.
  - reflexivity.
  - reflexivity.
  - reflexivity.
Defined.

Lemma parse_sig_failures_witness :
  parse_sig (L "41 4") = []
  /\ wmain (fun _ => None)
       [L "siggrep"; L "--pattern"; L "41 4"; L "file.bin"]
     = {| Driver.exit_code := 1; Driver.stdout := EmptyString;
          Driver.stderr := Driver.usage (L "siggrep") |}.
Proof.
  destruct (parse_sig_failures (fun _ => None))
    as (Hfail & _ & _ & _ & _ & Hmain).
  assert (parse_sig (L "41 4") = []) as H.
  { apply Hfail. right. left. reflexivity. }
  split; [exact H|].
  apply (Hmain (L "siggrep") [L "--pattern"] (L "41 4") [L "file.bin"]
           {| file := []; sigs := [] |} H).
  reflexivity.
Defined.

Lemma usage_errors_witness :
  parse_args [L "siggrep"; L "--pattern"; L "41"; L "--narrow"] = None
  /\ wmain (fun _ => None) [L "siggrep"; L "--pattern"; L "41"; L "--narrow"]
     = {| Driver.exit_code := 1; Driver.stdout := EmptyString;
          Driver.stderr := Driver.usage (L "siggrep") |}.
Proof.
  destruct (usage_errors (fun _ => None) (L "siggrep"))
    as (Hmain & _ & _ & Hflag & _).
  assert (parse_args [L "siggrep"; L "--pattern"; L "41"; L "--narrow"] = None)
    as H.
  { apply (Hflag [L "--pattern"; L "41"] (L "--narrow")); [reflexivity|].
    intros [|a [|b [|c pre']]]; cbn; intros E; inversion E. }
  split; [exact H|]. exact (Hmain _ H).
Defined.

(** The word [--foo] is no flag of the program; as the last argument it is
    taken as the file path, and the run ends with the exit code for an
    unreadable file, or with the counts when such a file exists. *)
Lemma unrecognized_flag_is_file_path :
  Spec.is_keyword (L "--foo") = false
  /\ parse_args [L "siggrep"; L "--pattern"; L "41"; L "--foo"]
     = Some {| file := L "--foo"; sigs := [[(0x41, true)]] |}
  /\ Driver.exit_code
       (wmain (fun _ => None) [L "siggrep"; L "--pattern"; L "41"; L "--foo"])
     = 2
  /\ wmain (fun _ => Some [0x41])
       [L "siggrep"; L "--pattern"; L "41"; L "--foo"]
     = {| Driver.exit_code := 0;
          Driver.stdout := ("1" ++ String "010" EmptyString)%string;
          Driver.stderr := [] |}.
Proof. repeat split. Qed.

Lemma count_sig_empty_signature_witness :
  Z.of_nat (length [0x10; 0x20; 0x30]) <= INT_MAX
  /\ count_sig [0x10; 0x20; 0x30] [] = 3.
Proof.
  assert (Z.of_nat (length [0x10; 0x20; 0x30]) <= INT_MAX) as H
      by (vm_compute; discriminate).
  split; [exact H|].
  exact (proj1 (count_sig_empty_signature (fun _ => None)
                  [0x10; 0x20; 0x30] H)).
Defined.

(** A buffer of 2^31 bytes is past the range of the [int] counter: the
    count of the empty signature wraps round to a negative number and is
    not the length of the buffer. *)
Lemma count_sig_empty_signature_overflow :
  count_sig (repeat 0 (Z.to_nat 2147483648)) []
  <> Z.of_nat (length (repeat 0 (Z.to_nat 2147483648))).
Proof.
  rewrite count_sig_hits, hits_empty_sig, repeat_length, Z2Nat.id by lia.
  vm_compute. intros H. discriminate H.
Qed.

(** ** Worked examples *)
Section Examples.

Example unhex_digits :
  map unhex (L "09afAF") = [0; 9; 10; 15; 10; 15]
  /\ map unhex (L "g? ") = [0xFF; 0xFF; 0xFF]
  /\ unhex 0 = 0xFF /\ unhex (-1) = 0xFF /\ unhex 0x80 = 0xFF
  /\ unhex 0x130 = 0xFF.
Proof. repeat split. Qed.

Example parse_sig_ida_pattern :
  parse_sig (L "12 34 ? 78")
  = [(0x12, true); (0x34, true); (0, false); (0x78, true)].
Proof. reflexivity. Qed.

Example parse_sig_single_byte : parse_sig (L "4A") = [(0x4A, true)].
Proof. reflexivity. Qed.

Example parse_sig_digit_then_space : parse_sig (L "4 A") = [].
Proof. reflexivity. Qed.

Example parse_sig_wildcard_tokens :
  parse_sig (L "??") = [(0, false)]
  /\ parse_sig (L "? ?") = [(0, false); (0, false)]
  /\ parse_sig (L "?4") = [].
Proof. repeat split. Qed.

Example ida_pattern_matches :
  let sig := parse_sig (L "12 34 ? 78") in
  count_sig [0x12; 0x34; 0x00; 0x78] sig = 1
  /\ count_sig [0x12; 0x34; 0xFF; 0x78] sig = 1
  /\ count_sig [0x12; 0x33; 0x00; 0x78] sig = 0.
Proof. repeat split. Qed.

Example literal_signatures :
  ParseArgs.narrow_loop (L "AB") [] = Some [(0x41, true); (0x42, true)]
  /\ ParseArgs.wide_loop (L "A") [] = [(0x41, true); (0x00, true)]
  /\ ParseArgs.widebe_loop (L "A") [] = [(0x00, true); (0x41, true)]
  /\ ParseArgs.narrow_loop [0x100] [] = None
  /\ ParseArgs.wide_loop [0x1234] [] = [(0x34, true); (0x12, true)].
Proof. repeat split. Qed.

Example run_with_wildcard :
  wmain (fun _ => Some [0x41; 0x00; 0x41; 0xFF; 0x41])
    [L "siggrep"; L "--pattern"; L "41 ? 41"; L "five.bin"]
  = {| Driver.exit_code := 0;
       Driver.stdout := ("2" ++ String "010" EmptyString)%string;
       Driver.stderr := [] |}.
Proof. vm_compute. reflexivity. Qed.

Example run_without_signature :
  wmain (fun _ => Some [0x41]) [L "siggrep"; L "five.bin"]
  = {| Driver.exit_code := 1; Driver.stdout := EmptyString;
       Driver.stderr := Driver.usage (L "siggrep") |}.
Proof. reflexivity. Qed.

Example run_on_missing_file :
  wmain (fun _ => None) [L "siggrep"; L "--narrow"; L "AB"; L "nowhere.bin"]
  = {| Driver.exit_code := 2; Driver.stdout := EmptyString;
       Driver.stderr := Driver.read_failure (L "nowhere.bin") |}.
Proof. reflexivity. Qed.

Example run_after_dashes :
  parse_args [L "siggrep"; L "--wide"; L "A"; L "--"; L "--pattern"]
  = Some {| file := L "--pattern"; sigs := [[(0x41, true); (0, true)]] |}.
Proof. reflexivity. Qed.

End Examples.

(** ** More on the hex-pattern compiler *)
Section ParseSigMore.

Import ParseSig.

Lemma loop_advance (c : wchar) (str : wstring) (st : State) (nibble : Z)
      (sig : Signature) :
  loop (c :: str) st nibble sig
  = match advance st nibble sig c with
    | None => None
    | Some (st', nibble', sig') => loop str st' nibble' sig'
    end.
Proof.
  destruct st; cbn [loop advance];
    repeat match goal with
           | |- context [if ?b then _ else _] => destruct b
           end; reflexivity.
Qed.

(** The variable [nibble] is read in [AfterFirst] only. *)
Lemma loop_nibble (str : wstring) :
  forall st n n' sig,
    st <> AfterFirst -> loop str st n sig = loop str st n' sig.
Proof.
  induction str as [|c str IH]; intros st n n' sig Hst; [reflexivity|].
  destruct st; try congruence; cbn [loop];
    repeat match goal with
           | |- context [if ?b then _ else _] => destruct b
           end; try reflexivity; apply IH; discriminate.
Qed.

Lemma advance_prefix (pre sig : Signature) (st : State) (n : Z) (c : wchar) :
  advance st n (pre ++ sig) c
  = match advance st n sig c with
    | None => None
    | Some (st', n', sig') => Some (st', n', pre ++ sig')
    end.
Proof.
  destruct st; cbn [advance]; unfold emplace_back;
    repeat match goal with
           | |- context [if ?b then _ else _] => destruct b
           end; rewrite <- ?app_assoc; reflexivity.
Qed.

(** Cells already in the vector stay in front of what the loop adds. *)
Lemma loop_prefix (pre : Signature) (str : wstring) :
  forall st n sig,
    loop str st n (pre ++ sig)
    = match loop str st n sig with
      | None => None
      | Some (st', sig') => Some (st', pre ++ sig')
      end.
Proof.
  induction str as [|c str IH]; intros st n sig; [reflexivity|].
  rewrite !loop_advance, advance_prefix.
  destruct (advance st n sig c) as [[[st' n'] sig']|]; [apply IH|reflexivity].
Qed.

Lemma loop_split_fail (a rest : wstring) :
  forall st n sig,
    loop a st n sig = None -> loop (a ++ rest) st n sig = None.
Proof.
  induction a as [|c a IH]; intros st n sig H; [discriminate|].
  cbn [app]. rewrite loop_advance in *.
  destruct (advance st n sig c) as [[[st' n'] sig']|]; [apply IH, H|reflexivity].
Qed.

Lemma loop_split (a : wstring) :
  forall st n sig st' sig',
    loop a st n sig = Some (st', sig') ->
    exists n', forall rest, loop (a ++ rest) st n sig = loop rest st' n' sig'.
Proof.
  induction a as [|c a IH]; intros st n sig st' sig' H.
  - injection H as <- <-. exists n. reflexivity.
  - rewrite loop_advance in H.
    destruct (advance st n sig c) as [[[st1 n1] sig1]|] eqn:E; [|discriminate].
    destruct (IH _ _ _ _ _ H) as [n' Hn']. exists n'. intros rest.
    cbn [app]. rewrite loop_advance, E. apply Hn'.
Qed.

(** White space read in a state that accepts leads to [AfterSpace]. *)
Lemma loop_space (w : wchar) (str : wstring) (st : State) (n : Z)
      (sig : Signature) :
  isspace w = true -> st <> AfterFirst ->
  loop (w :: str) st n sig = loop str AfterSpace 0 sig.
Proof.
  intros Hw Hst. destruct st; try congruence; cbn [loop]; rewrite Hw;
    apply loop_nibble; discriminate.
Qed.

Lemma loop_space_AfterFirst (w : wchar) (str : wstring) (n : Z)
      (sig : Signature) :
  isspace w = true -> loop (w :: str) AfterFirst n sig = None.
Proof.
  intros Hw. cbn [loop].
  rewrite (unhex_other _ (space_not_hex _ Hw)). reflexivity.
Qed.

(** What [parse_sig] makes of the result of the loop. *)
Lemma parse_sig_of_loop (text : wstring) (st : State) (sig : Signature) :
  loop text AfterSpace 0 [] = Some (st, sig) -> st <> AfterFirst ->
  parse_sig text = sig.
Proof.
  unfold parse_sig. intros -> H. destruct st; congruence.
Qed.

Lemma parse_sig_accepted (text : wstring) :
  parse_sig text <> [] ->
  exists st, loop text AfterSpace 0 [] = Some (st, parse_sig text)
             /\ st <> AfterFirst.
Proof.
  unfold parse_sig.
  destruct (loop text AfterSpace 0 []) as [[[] sig]|]; intros H;
    try congruence; eexists; split; try reflexivity; discriminate.
Qed.

Lemma State_eq_AfterFirst (st : State) : st = AfterFirst \/ st <> AfterFirst.
Proof. destruct st; (left; reflexivity) || (right; discriminate). Qed.

Ltac split_tests :=
  repeat match goal with
         | |- context [(?a <=? ?b)] =>
             destruct (Z.leb_spec a b); cbn [andb orb negb]; try lia
         | |- context [(?a <? ?b)] =>
             destruct (Z.ltb_spec a b); cbn [andb orb negb]; try lia
         | |- context [(?a =? ?b)] =>
             destruct (Z.eqb_spec a b); cbn [andb orb negb]; try lia
         end.

Lemma upper_cases (c : wchar) :
  (97 <= c <= 102 /\ upper c = c - 32) \/ (~ 97 <= c <= 102 /\ upper c = c).
Proof.
  unfold upper. change (wc "a") with 97. change (wc "f") with 102.
  destruct (Z.leb_spec 97 c); destruct (Z.leb_spec c 102); cbn [andb];
    (left; split; [lia|reflexivity]) || (right; split; [lia|reflexivity]).
Qed.

Lemma hex_value_upper (c : wchar) :
  Spec.hex_value (upper c) = Spec.hex_value c.
Proof.
  destruct (upper_cases c) as [[Hc ->]|[_ ->]]; [|reflexivity].
  unfold Spec.hex_value.
  change (wc "0") with 48. change (wc "9") with 57.
  change (wc "a") with 97. change (wc "f") with 102.
  change (wc "A") with 65. change (wc "F") with 70.
  split_tests. f_equal. lia.
Qed.

Lemma advance_upper (st : State) (n : Z) (sig : Signature) (c : wchar) :
  advance st n sig (upper c) = advance st n sig c.
Proof.
  assert (unhex (upper c) = unhex c) as Hu
      by (rewrite !unhex_hex_value, hex_value_upper; reflexivity).
  assert (isspace (upper c) = isspace c /\ (upper c =? wc "?") = (c =? wc "?"))
    as [Hs Hq].
  { destruct (upper_cases c) as [[Hc ->]|[_ ->]]; [|split; reflexivity].
    unfold isspace. change (wc "?") with 63.
    split; split_tests; reflexivity. }
  destruct st; cbn [advance]; rewrite ?Hu, ?Hs, ?Hq; reflexivity.
Qed.

Lemma loop_upper (str : wstring) :
  forall st n sig, loop (map upper str) st n sig = loop str st n sig.
Proof.
  induction str as [|c str IH]; intros st n sig; [reflexivity|].
  cbn [map]. rewrite !loop_advance, advance_upper.
  destruct (advance st n sig c) as [[[st' n'] sig']|]; [apply IH|reflexivity].
Qed.

(** The compiler does not tell the letters [a] to [f] from [A] to [F]: a
    pattern and its upper-case form compile to the same signature. *)
Theorem parse_sig_ignores_case (text : wstring) :
  parse_sig (map upper text) = parse_sig text.
Proof. unfold parse_sig. rewrite loop_upper. reflexivity. Qed.

(** White space only separates tokens: the compiler drops it at both ends of
    the text, takes a run of it for a single character, and does not tell
    one white-space character from another. *)
Theorem parse_sig_white_space (text a b : wstring) (w w' : wchar) :
  isspace w = true -> isspace w' = true ->
  parse_sig (w :: text) = parse_sig text
  /\ parse_sig (text ++ [w]) = parse_sig text
  /\ parse_sig (a ++ w :: w' :: b) = parse_sig (a ++ w :: b)
  /\ parse_sig (a ++ w :: b) = parse_sig (a ++ w' :: b).
Proof.
  intros Hw Hw'.
  assert (forall st n sig,
             loop (w :: w' :: b) st n sig = loop (w :: b) st n sig) as Hrun.
  { intros st n sig. destruct (State_eq_AfterFirst st) as [->|Hst].
    - rewrite !loop_space_AfterFirst by exact Hw. reflexivity.
    - rewrite !(loop_space w) by assumption.
      apply loop_space; [exact Hw'|discriminate]. }
  assert (forall st n sig,
             loop (w :: b) st n sig = loop (w' :: b) st n sig) as Hkind.
  { intros st n sig. destruct (State_eq_AfterFirst st) as [->|Hst].
    - rewrite !loop_space_AfterFirst by assumption. reflexivity.
    - rewrite (loop_space w), (loop_space w') by assumption. reflexivity. }
  repeat split.
  - unfold parse_sig. rewrite loop_space by (exact Hw || discriminate).
    reflexivity.
  - unfold parse_sig.
    destruct (loop text AfterSpace 0 []) as [[st sig]|] eqn:E.
    + destruct (loop_split _ _ _ _ _ _ E) as [n' ->].
      destruct (State_eq_AfterFirst st) as [->|Hst].
      * rewrite loop_space_AfterFirst by exact Hw. reflexivity.
      * rewrite loop_space by assumption. cbn [loop].
        destruct st; congruence.
    + rewrite (loop_split_fail _ _ _ _ _ E). reflexivity.
  - unfold parse_sig.
    destruct (loop a AfterSpace 0 []) as [[st sig]|] eqn:E.
    + destruct (loop_split _ _ _ _ _ _ E) as [n' Hn'].
      rewrite !Hn', Hrun. reflexivity.
    + rewrite !(loop_split_fail _ _ _ _ _ E). reflexivity.
  - unfold parse_sig.
    destruct (loop a AfterSpace 0 []) as [[st sig]|] eqn:E.
    + destruct (loop_split _ _ _ _ _ _ E) as [n' Hn'].
      rewrite !Hn', Hkind. reflexivity.
    + rewrite !(loop_split_fail _ _ _ _ _ E). reflexivity.
Qed.

(** Two patterns that compile, with white space between them, compile to
    the two signatures one after the other; a part on which the compiler
    gives up makes it give up on the whole. *)
Theorem parse_sig_concat (a b : wstring) (w : wchar) :
  isspace w = true ->
  (parse_sig a <> [] -> parse_sig b <> [] ->
   parse_sig (a ++ w :: b) = parse_sig a ++ parse_sig b)
  /\ (gives_up (loop a AfterSpace 0 []) -> parse_sig (a ++ w :: b) = [])
  /\ (gives_up (loop b AfterSpace 0 []) -> parse_sig (a ++ w :: b) = []).
Proof.
  intros Hw.
  assert (forall st n sig,
             st <> AfterFirst ->
             loop (w :: b) st n sig
             = match loop b AfterSpace 0 [] with
               | None => None
               | Some (st', sig') => Some (st', sig ++ sig')
               end) as Hb.
  { intros st n sig Hst. rewrite loop_space by assumption.
    rewrite <- (app_nil_r sig) at 1. apply loop_prefix. }
  repeat split.
  - intros Ha Hnb.
    destruct (parse_sig_accepted a Ha) as (sta & Ea & Hsta).
    destruct (parse_sig_accepted b Hnb) as (stb & Eb & Hstb).
    destruct (loop_split _ _ _ _ _ _ Ea) as [n' Hn'].
    apply (parse_sig_of_loop _ stb); [|exact Hstb].
    rewrite Hn', Hb, Eb by exact Hsta. reflexivity.
  - intros Ha. apply gives_up_empty.
    destruct (loop a AfterSpace 0 []) as [[sta sa]|] eqn:Ea.
    + destruct sta; try contradiction.
      destruct (loop_split _ _ _ _ _ _ Ea) as [n' ->].
      rewrite loop_space_AfterFirst by exact Hw. exact I.
    + rewrite (loop_split_fail _ _ _ _ _ Ea). exact I.
  - intros Hgb. apply gives_up_empty.
    destruct (loop a AfterSpace 0 []) as [[sta sa]|] eqn:Ea.
    + destruct (loop_split _ _ _ _ _ _ Ea) as [n' ->].
      destruct (State_eq_AfterFirst sta) as [->|Hsta].
      * rewrite loop_space_AfterFirst by exact Hw. exact I.
      * rewrite Hb by exact Hsta.
        destruct (loop b AfterSpace 0 []) as [[[] sb]|]; try contradiction;
          exact I.
    + rewrite (loop_split_fail _ _ _ _ _ Ea). exact I.
Qed.

Lemma parse_sig_white_space_witness :
  isspace 9 = true /\ isspace 32 = true
  /\ parse_sig (L "41" ++ 9 :: 32 :: L "? 42") = parse_sig (L "41" ++ 9 :: L "? 42").
Proof.
  split; [reflexivity|]. split; [reflexivity|].
  apply (parse_sig_white_space [] (L "41") (L "? 42") 9 32); reflexivity.
Defined.

Lemma parse_sig_concat_witness :
  isspace 32 = true /\ parse_sig (L "41 ?") <> [] /\ parse_sig (L "4a") <> []
  /\ parse_sig (L "41 ?" ++ 32 :: L "4a")
     = parse_sig (L "41 ?") ++ parse_sig (L "4a").
Proof.
  split; [reflexivity|]. split; [discriminate|]. split; [discriminate|].
  apply (parse_sig_concat (L "41 ?") (L "4a") 32); [reflexivity|..];
    discriminate.
Defined.

Lemma hex_value_hex_char (v : Z) :
  0 <= v < 16 -> Spec.hex_value (hex_char v) = Some v.
Proof.
  intros Hv. unfold hex_char, Spec.hex_value.
  change (wc "0") with 48. change (wc "9") with 57.
  change (wc "a") with 97. change (wc "f") with 102.
  change (wc "A") with 65. change (wc "F") with 70.
  destruct (Z.ltb_spec v 10); split_tests; f_equal; lia.
Qed.

(** The two nibbles of a byte give the byte back. *)
Lemma byte_of_nibbles (b : Z) :
  0 <= b < 256 -> uint8 (Z.lor (Z.shiftl (b / 16) 4) (b mod 16)) = b.
Proof.
  intros Hb.
  assert (forallb (fun k => uint8 (Z.lor (Z.shiftl (k / 16) 4) (k mod 16)) =? k)
            (map Z.of_nat (seq 0 256)) = true) as Hall
      by (vm_compute; reflexivity).
  rewrite forallb_forall in Hall. apply Z.eqb_eq, Hall.
  rewrite <- (Z2Nat.id b) by lia. apply in_map, in_seq. lia.
Qed.

(** Reading the text of one cell. *)
Lemma loop_token (cell : Cell) (rest : wstring) (n : Z) (acc : Signature) :
  compiled_cell cell ->
  exists st n',
    st <> AfterFirst
    /\ loop (token cell ++ rest) AfterSpace n acc = loop rest st n' (acc ++ [cell]).
Proof.
  destruct cell as [b [|]]; unfold compiled_cell, token; cbn [fst snd].
  - intros Hb.
    assert (0 <= b / 16 < 16) as Hhi
        by (split; [apply Z.div_pos; lia|apply Z.div_lt_upper_bound; lia]).
    assert (0 <= b mod 16 < 16) as Hlo by (apply Z.mod_pos_bound; lia).
    pose proof (hex_value_hex_char _ Hhi) as Vhi.
    pose proof (hex_value_hex_char _ Hlo) as Vlo.
    destruct (hex_digit_plain _ _ Vhi) as [Hs Hq].
    destruct (unhex_digit _ _ Vhi) as [Uhi Nhi].
    destruct (unhex_digit _ _ Vlo) as [Ulo Nlo].
    exists AfterSecond, (b / 16). split; [discriminate|].
    cbn [app loop]. rewrite Hs, Hq, Nhi, Nlo, Uhi, Ulo. cbn [negb].
    unfold emplace_back. rewrite byte_of_nibbles by exact Hb. reflexivity.
  - intros ->. exists AfterWildcard, (unhex (wc "?")).
    split; [discriminate|reflexivity].
Qed.

Lemma loop_pattern_text (sig : Signature) :
  sig <> [] -> Forall compiled_cell sig ->
  forall n acc,
  exists st,
    st <> AfterFirst
    /\ loop (pattern_text sig) AfterSpace n acc = Some (st, acc ++ sig).
Proof.
  induction sig as [|cell sig IH]; [congruence|]. intros _ Hall n acc.
  inversion Hall as [|? ? Hcell Hrest]; subst.
  destruct sig as [|cell2 sig].
  - cbn [pattern_text]. rewrite <- (app_nil_r (token cell)).
    destruct (loop_token cell [] n acc Hcell) as (st & n' & Hst & ->).
    exists st. split; [exact Hst|reflexivity].
  - change (pattern_text (cell :: cell2 :: sig))
      with (token cell ++ wc " " :: pattern_text (cell2 :: sig)).
    destruct (loop_token cell (wc " " :: pattern_text (cell2 :: sig)) n acc Hcell)
      as (st & n' & Hst & ->).
    rewrite loop_space by (reflexivity || exact Hst).
    destruct (IH ltac:(discriminate) Hrest 0 (acc ++ [cell])) as (st' & Hst' & ->).
    exists st'. split; [exact Hst'|]. rewrite <- app_assoc. reflexivity.
Qed.

(** Round trip: a non-empty signature of bytes and zero wildcards, written
    as two upper-case digits or a question mark per cell with single spaces
    between, compiles to itself. *)
Theorem parse_sig_pattern_text (sig : Signature) :
  sig <> [] -> Forall compiled_cell sig -> parse_sig (pattern_text sig) = sig.
Proof.
  intros Hne Hall.
  destruct (loop_pattern_text sig Hne Hall 0 []) as (st & Hst & E).
  exact (parse_sig_of_loop _ _ _ E Hst).
Qed.

Lemma parse_sig_pattern_text_witness :
  [(0x12, true); (0, false); (0xAF, true)] <> []
  /\ Forall compiled_cell [(0x12, true); (0, false); (0xAF, true)]
  /\ pattern_text [(0x12, true); (0, false); (0xAF, true)] = L "12 ? AF"
  /\ parse_sig (pattern_text [(0x12, true); (0, false); (0xAF, true)])
     = [(0x12, true); (0, false); (0xAF, true)].
Proof.
  assert (Forall compiled_cell [(0x12, true); (0, false); (0xAF, true)]) as H.
  { repeat constructor; cbn; lia. }
  split; [discriminate|]. split; [exact H|]. split; [reflexivity|].
  apply parse_sig_pattern_text; [discriminate|exact H].
Defined.

End ParseSigMore.

(** ** More on the nibble decoder *)
Section UnhexMore.

(** [unhex] gives the value of a digit for exactly the characters [0-9],
    [a-f] and [A-F], the same for a letter in either case, and 0xFF for every
    other code: also for a wide character whose low byte alone would be a
    digit, and for zero and negative codes. *)
Theorem unhex_values (c : wchar) :
  (unhex c = 0xFF \/ 0 <= unhex c <= 15)
  /\ (unhex c <> 0xFF
      <-> wc "0" <= c <= wc "9" \/ wc "a" <= c <= wc "f"
          \/ wc "A" <= c <= wc "F")
  /\ (wc "0" <= c <= wc "9" -> unhex c = c - wc "0")
  /\ (wc "a" <= c <= wc "f" -> unhex c = c - wc "a" + 10)
  /\ (wc "A" <= c <= wc "F" -> unhex c = c - wc "A" + 10)
  /\ (wc "a" <= c <= wc "f" -> unhex (c - 32) = unhex c)
  /\ (forall k, k <> 0 -> unhex (c mod 256 + 256 * k) = 0xFF).
Proof.
  assert (forall d,
             unhex d
             = if (48 <=? d) && (d <=? 57) then d - 48
               else if (97 <=? d) && (d <=? 102) then d - 97 + 10
                    else if (65 <=? d) && (d <=? 70) then d - 65 + 10
                         else 255) as Hu.
  { intros d. rewrite unhex_hex_value. unfold Spec.hex_value.
    change (wc "0") with 48. change (wc "9") with 57.
    change (wc "a") with 97. change (wc "f") with 102.
    change (wc "A") with 65. change (wc "F") with 70.
    repeat match goal with
           | |- context [if ?b then _ else _] => destruct b
           end; reflexivity. }
  change (wc "0") with 48. change (wc "9") with 57.
  change (wc "a") with 97. change (wc "f") with 102.
  change (wc "A") with 65. change (wc "F") with 70.
  change 0xFF with 255.
  repeat split.
  - rewrite Hu.
    destruct (Z.leb_spec 48 c); destruct (Z.leb_spec c 57);
      destruct (Z.leb_spec 97 c); destruct (Z.leb_spec c 102);
      destruct (Z.leb_spec 65 c); destruct (Z.leb_spec c 70);
      cbn [andb]; lia.
  - rewrite Hu.
    destruct (Z.leb_spec 48 c); destruct (Z.leb_spec c 57);
      destruct (Z.leb_spec 97 c); destruct (Z.leb_spec c 102);
      destruct (Z.leb_spec 65 c); destruct (Z.leb_spec c 70);
      cbn [andb]; lia.
  - rewrite Hu.
    destruct (Z.leb_spec 48 c); destruct (Z.leb_spec c 57);
      destruct (Z.leb_spec 97 c); destruct (Z.leb_spec c 102);
      destruct (Z.leb_spec 65 c); destruct (Z.leb_spec c 70);
      cbn [andb]; lia.
  - intros H. rewrite Hu.
    destruct (Z.leb_spec 48 c); destruct (Z.leb_spec c 57);
      cbn [andb]; lia.
  - intros H. rewrite Hu.
    destruct (Z.leb_spec 48 c); destruct (Z.leb_spec c 57);
      destruct (Z.leb_spec 97 c); destruct (Z.leb_spec c 102);
      cbn [andb]; lia.
  - intros H. rewrite Hu.
    destruct (Z.leb_spec 48 c); destruct (Z.leb_spec c 57);
      destruct (Z.leb_spec 97 c); destruct (Z.leb_spec c 102);
      destruct (Z.leb_spec 65 c); destruct (Z.leb_spec c 70);
      cbn [andb]; lia.
  - intros H. rewrite !Hu.
    destruct (Z.leb_spec 48 c); destruct (Z.leb_spec c 57);
      destruct (Z.leb_spec 97 c); destruct (Z.leb_spec c 102);
      destruct (Z.leb_spec 65 c); destruct (Z.leb_spec c 70);
      destruct (Z.leb_spec 48 (c - 32)); destruct (Z.leb_spec (c - 32) 57);
      destruct (Z.leb_spec 97 (c - 32)); destruct (Z.leb_spec (c - 32) 102);
      destruct (Z.leb_spec 65 (c - 32)); destruct (Z.leb_spec (c - 32) 70);
      cbn [andb]; lia.
  - intros k Hk. rewrite Hu.
    pose proof (Z.mod_pos_bound c 256 ltac:(lia)).
    set (d := c mod 256 + 256 * k).
    assert (d < 0 \/ 256 <= d) as Hd by (subst d; lia).
    destruct (Z.leb_spec 48 d); destruct (Z.leb_spec d 57);
      destruct (Z.leb_spec 97 d); destruct (Z.leb_spec d 102);
      destruct (Z.leb_spec 65 d); destruct (Z.leb_spec d 70);
      cbn [andb]; lia.
Qed.

End UnhexMore.

(** ** More on the matcher *)
Section MatcherMore.

Import Matcher.


Lemma match_here_wildcards (sig : Signature) :
  Forall (fun cell => snd cell = false) sig ->
  forall l, match_here l sig = (length sig <=? length l)%nat.
Proof.
  induction 1 as [|cell sig Hcell _ IH]; intros l; [reflexivity|].
  cbn [match_here length]. destruct l as [|x l]; [reflexivity|].
  unfold pred. rewrite Hcell, IH. reflexivity.
Qed.

Lemma hits_wildcards (sig : Signature) (l : list Z) :
  sig <> [] -> Forall (fun cell => snd cell = false) sig ->
  hits l sig = (length l + 1 - length sig)%nat.
Proof.
  intros Hne Hall.
  assert (1 <= length sig)%nat as Hlen
      by (destruct sig; [congruence|cbn [length]; lia]).
  induction l as [|x l IH].
  - cbn [hits length]. lia.
  - cbn [hits]. rewrite (match_here_wildcards sig Hall), IH. cbn [length].
    destruct (Nat.leb_spec (length sig) (S (length l))); lia.
Qed.

Lemma hits_single (b : Z) (l : list Z) :
  hits l [(b, true)] = count_occ Z.eq_dec l b.
Proof.
  induction l as [|x l IH]; [reflexivity|].
  cbn [hits match_here count_occ]. unfold pred. cbn [fst snd negb orb].
  rewrite IH, andb_true_r.
  destruct (Z.eq_dec x b) as [->|Hne].
  - rewrite Z.eqb_refl. reflexivity.
  - apply Z.eqb_neq in Hne. rewrite Hne. reflexivity.
Qed.

(** The inner loop of the search answers whether a window at the front of
    the range is covered by the signature. *)
Lemma match_here_covers (sig : Signature) :
  forall l,
    match_here l sig = true
    <-> exists window rest, l = window ++ rest /\ covers sig window.
Proof.
  unfold covers.
  induction sig as [|cell sig IH]; intros l.
  - split; [intros _; exists [], l; split; [reflexivity|constructor]|reflexivity].
  - cbn [match_here]. destruct l as [|x l].
    + split; [discriminate|].
      intros (window & rest & E & H). inversion H; subst. discriminate E.
    + rewrite andb_true_iff, IH. unfold pred. split.
      * intros [Hx (window & rest & -> & H)].
        exists (x :: window), rest. split; [reflexivity|].
        constructor; [|exact H].
        destruct (snd cell); [right|left; reflexivity].
        apply Z.eqb_eq. exact Hx.
      * intros (window & rest & E & H).
        inversion H as [|x' ? window' ? Hx Hrest]; subst.
        injection E as -> ->. split; [|exists window', rest; auto].
        destruct Hx as [->| ->]; [reflexivity|].
        rewrite Z.eqb_refl. apply orb_true_r.
Qed.

Lemma match_here_app (sig : Signature) :
  forall l b, match_here l sig = true -> match_here (l ++ b) sig = true.
Proof.
  induction sig as [|cell sig IH]; intros l b; [reflexivity|].
  cbn [match_here]. destruct l as [|x l]; [discriminate|].
  cbn [app]. rewrite !andb_true_iff. intros [Hx H]. split; auto.
Qed.

Lemma hits_app (a b : list Z) (sig : Signature) :
  (hits a sig + hits b sig <= hits (a ++ b) sig)%nat.
Proof.
  induction a as [|x a IH]; [cbn; lia|].
  cbn [app hits].
  destruct (match_here (x :: a) sig) eqn:E.
  - pose proof (match_here_app sig (x :: a) b E) as E'.
    cbn [app] in E'. rewrite E'. lia.
  - destruct (match_here (x :: a ++ b) sig); lia.
Qed.

Lemma hits_positive (sig : Signature) (l : list Z) :
  (0 < hits l sig)%nat
  <-> exists pre x rest, l = pre ++ x :: rest /\ match_here (x :: rest) sig = true.
Proof.
  induction l as [|x l IH].
  - cbn [hits]. split; [lia|].
    intros (pre & y & rest & E & _). destruct pre; discriminate E.
  - cbn [hits]. destruct (match_here (x :: l) sig) eqn:E.
    + split; [|lia]. intros _. exists [], x, l. auto.
    + cbn [Nat.add]. rewrite IH. split.
      * intros (pre & y & rest & -> & H). exists (x :: pre), y, rest. auto.
      * intros (pre & y & rest & Hl & H). destruct pre as [|z pre].
        -- injection Hl as -> ->. congruence.
        -- injection Hl as -> ->. exists pre, y, rest. auto.
Qed.



(** A signature of wildcards only, as [? ? ?] compiles to, is counted once
    for every window of its length. *)
Theorem count_sig_wildcards_only (buf : list Z) (sig : Signature) :
  Z.of_nat (length buf) <= INT_MAX ->
  sig <> [] -> Forall (fun cell => snd cell = false) sig ->
  count_sig buf sig = Z.of_nat (length buf + 1 - length sig).
Proof.
  intros H Hne Hall. rewrite count_sig_exact by exact H.
  rewrite hits_wildcards by assumption. reflexivity.
Qed.

Lemma count_sig_wildcards_only_witness :
  Z.of_nat (length [1; 2; 3; 4; 5]) <= INT_MAX
  /\ parse_sig (L "? ?") <> []
  /\ Forall (fun cell => snd cell = false) (parse_sig (L "? ?"))
  /\ count_sig [1; 2; 3; 4; 5] (parse_sig (L "? ?")) = 4.
Proof.
  assert (Z.of_nat (length [1; 2; 3; 4; 5]) <= INT_MAX) as H
      by (vm_compute; discriminate).
  assert (Forall (fun cell : Cell => snd cell = false) (parse_sig (L "? ?")))
    as Hall by (repeat constructor).
  split; [exact H|]. split; [discriminate|]. split; [exact Hall|].
  exact (count_sig_wildcards_only [1; 2; 3; 4; 5] (parse_sig (L "? ?")) H
           ltac:(discriminate) Hall).
Defined.

(** A signature of one exact byte counts the occurrences of the byte. *)
Theorem count_sig_single_byte (buf : list Z) (b : Z) :
  Z.of_nat (length buf) <= INT_MAX ->
  count_sig buf [(b, true)] = Z.of_nat (count_occ Z.eq_dec buf b).
Proof.
  intros H. rewrite count_sig_exact by exact H.
  rewrite hits_single. reflexivity.
Qed.

Lemma count_sig_single_byte_witness :
  Z.of_nat (length [0x41; 0x42; 0x41]) <= INT_MAX
  /\ count_sig [0x41; 0x42; 0x41] [(0x41, true)] = 2.
Proof.
  assert (Z.of_nat (length [0x41; 0x42; 0x41]) <= INT_MAX) as H
      by (vm_compute; discriminate).
  split; [exact H|].
  exact (count_sig_single_byte [0x41; 0x42; 0x41] 0x41 H).
Defined.

Lemma hits_window (buf : list Z) (sig : Signature) :
  sig <> [] ->
  (0 < hits buf sig)%nat
  <-> exists pre window post,
      buf = pre ++ window ++ post /\ covers sig window.
Proof.
  intros Hne. rewrite hits_positive. split.
  - intros (pre & x & rest & -> & Hm).
    apply match_here_covers in Hm as (window & post & E & Hc).
    exists pre, window, post. rewrite <- E. auto.
  - intros (pre & window & post & -> & Hc).
    destruct window as [|x window].
    { unfold covers in Hc. inversion Hc; subst.
      exfalso. apply Hne. reflexivity. }
    exists pre, x, (window ++ post). split; [reflexivity|].
    apply match_here_covers. exists (x :: window), post. auto.
Qed.

(** The count of a non-empty signature is positive exactly when the buffer
    contains a window that the signature covers, and zero exactly when it
    contains none. *)
Theorem count_sig_positive (buf : list Z) (sig : Signature) :
  Z.of_nat (length buf) <= INT_MAX -> sig <> [] ->
  (0 < count_sig buf sig
   <-> exists pre window post,
       buf = pre ++ window ++ post /\ covers sig window)
  /\ (count_sig buf sig = 0
      <-> forall pre window post,
          buf = pre ++ window ++ post -> ~ covers sig window).
Proof.
  intros H Hne. rewrite count_sig_exact by exact H.
  pose proof (hits_window buf sig Hne) as Hpos.
  split.
  - rewrite <- Hpos. lia.
  - split.
    + intros H0 pre window post E Hc.
      assert (0 < hits buf sig)%nat; [|lia].
      apply Hpos. exists pre, window, post. auto.
    + intros Hnone.
      destruct (Nat.eq_dec (hits buf sig) 0) as [E|Hnz];
        [rewrite E; reflexivity|].
      assert (0 < hits buf sig)%nat as Hk by lia.
      apply Hpos in Hk as (pre & window & post & Eb & Hc).
      exfalso. exact (Hnone pre window post Eb Hc).
Qed.

Lemma count_sig_positive_witness :
  Z.of_nat (length [0x10; 0x41; 0x99; 0x42]) <= INT_MAX
  /\ [(0x41, true); (0, false); (0x42, true)] <> []
  /\ exists pre window post,
      [0x10; 0x41; 0x99; 0x42] = pre ++ window ++ post
      /\ covers [(0x41, true); (0, false); (0x42, true)] window.
Proof.
  assert (Z.of_nat (length [0x10; 0x41; 0x99; 0x42]) <= INT_MAX) as H
      by (vm_compute; discriminate).
  split; [exact H|]. split; [discriminate|].
  apply (count_sig_positive [0x10; 0x41; 0x99; 0x42]
           [(0x41, true); (0, false); (0x42, true)] H ltac:(discriminate)).
  vm_compute. reflexivity.
Defined.

(** Counting goes byte by byte: the count of a buffer is the count of its
    tail, plus one when the signature matches at its first byte.  Joining two
    buffers loses no occurrence; it can only add those across the seam. *)
Theorem count_sig_compose (a b : list Z) (sig : Signature) :
  Z.of_nat (length (a ++ b)) <= INT_MAX ->
  count_sig a sig + count_sig b sig <= count_sig (a ++ b) sig
  /\ (forall x rest,
        a = x :: rest ->
        count_sig a sig
        = (if match_here a sig then 1 else 0) + count_sig rest sig).
Proof.
  intros H. rewrite length_app in H. split.
  - rewrite !count_sig_exact by (rewrite ?length_app; lia).
    pose proof (hits_app a b sig). lia.
  - intros x rest ->. cbn [length] in H.
    rewrite !count_sig_exact by (cbn [length]; lia).
    cbn [hits]. destruct (match_here (x :: rest) sig); lia.
Qed.

Lemma count_sig_compose_witness :
  Z.of_nat (length ([0x41; 0x41] ++ [0x41])) <= INT_MAX
  /\ count_sig [0x41; 0x41] [(0x41, true); (0x41, true)]
     + count_sig [0x41] [(0x41, true); (0x41, true)]
     <= count_sig ([0x41; 0x41] ++ [0x41]) [(0x41, true); (0x41, true)].
Proof.
  assert (Z.of_nat (length ([0x41; 0x41] ++ [0x41])) <= INT_MAX) as H
      by (vm_compute; discriminate).
  split; [exact H|].
  exact (proj1 (count_sig_compose [0x41; 0x41] [0x41]
                  [(0x41, true); (0x41, true)] H)).
Defined.

End MatcherMore.

(** ** More on literal signatures *)
Section LiteralMore.

Import ParseArgs Matcher.

Lemma byte_char (c : wchar) :
  0 <= c <= 255 -> Spec.low_byte c = c /\ Spec.high_byte c = 0.
Proof.
  intros H. unfold Spec.low_byte, Spec.high_byte.
  rewrite Z.mod_small, Z.div_small by lia. split; reflexivity.
Qed.

Lemma byte_chars_ok (text : wstring) :
  Forall (fun c => 0 <= c <= 255) text ->
  Forall wchar_ok text /\ existsb (fun c => c >? 255) text = false.
Proof.
  induction 1 as [|c text Hc _ [IH1 IH2]]; [split; [constructor|reflexivity]|].
  split; [constructor; [unfold wchar_ok; lia|exact IH1]|].
  cbn [existsb]. rewrite IH2.
  destruct (Z.gtb_spec c 255); [lia|reflexivity].
Qed.

(** For a text of characters up to 255 the narrow signature is the text
    itself, one exact cell per character; the wide signature has a zero byte
    after every character, the big-endian one before it. *)
Theorem literals_of_byte_text (text : wstring) :
  Forall (fun c => 0 <= c <= 255) text ->
  narrow_loop text [] = Some (map (fun c => (c, true)) text)
  /\ wide_loop text [] = flat_map (fun c => [(c, true); (0, true)]) text
  /\ widebe_loop text [] = flat_map (fun c => [(0, true); (c, true)]) text.
Proof.
  intros H. destruct (byte_chars_ok text H) as [Hok Hno].
  rewrite (narrow_loop_cells text Hok []), Hno.
  rewrite wide_loop_cells, widebe_loop_cells. cbn [app].
  induction H as [|c text Hc _ IH]; [repeat split|].
  destruct (byte_char c Hc) as [Hlo Hhi].
  cbn [existsb] in Hno. apply orb_false_elim in Hno as [_ Hno].
  inversion Hok; subst.
  destruct IH as (IHn & IHw & IHb); [assumption..|].
  cbn [map flat_map app]. rewrite Hlo, Hhi.
  repeat split; [|rewrite IHw|rewrite IHb]; try reflexivity.
  injection IHn as ->. reflexivity.
Qed.

Lemma literals_of_byte_text_witness :
  Forall (fun c => 0 <= c <= 255) (L "MZ")
  /\ wide_loop (L "MZ") []
     = [(0x4D, true); (0, true); (0x5A, true); (0, true)].
Proof.
  assert (Forall (fun c => 0 <= c <= 255) (L "MZ")) as H.
  { repeat constructor; cbn; lia. }
  split; [exact H|].
  exact (proj1 (proj2 (literals_of_byte_text (L "MZ") H))).
Defined.

(** The two wide encodings differ in the order of the two bytes of every
    character and in nothing else. *)
Theorem widebe_swaps_wide (text : wstring) :
  widebe_loop text [] = swap_pairs (wide_loop text [])
  /\ wide_loop text [] = swap_pairs (widebe_loop text [])
  /\ length (widebe_loop text []) = length (wide_loop text []).
Proof.
  rewrite wide_loop_cells, widebe_loop_cells. cbn [app].
  induction text as [|c text (IH1 & IH2 & IH3)]; [repeat split|].
  cbn [flat_map app swap_pairs length].
  rewrite <- IH1, <- IH2, IH3. repeat split.
Qed.

Lemma covers_exact (text window : list Z) :
  covers (map (fun c => (c, true)) text) window <-> window = text.
Proof.
  unfold covers. revert window.
  induction text as [|c text IH]; intros window; cbn [map].
  - split; [intros H; inversion H; reflexivity|intros ->; constructor].
  - split.
    + intros H. inversion H as [|x ? w ? Hx Hrest]; subst.
      destruct Hx as [Hx|Hx]; [discriminate Hx|]. cbn in Hx. subst x.
      f_equal. apply IH. exact Hrest.
    + intros ->. constructor; [right; reflexivity|]. apply IH. reflexivity.
Qed.

(** Searching for a narrow literal is searching for a substring: the count
    is positive exactly when the text occurs in the buffer, byte for
    character. *)
Theorem narrow_literal_occurs (buf : list Z) (text : wstring) :
  Z.of_nat (length buf) <= INT_MAX ->
  text <> [] -> Forall (fun c => 0 <= c <= 255) text ->
  exists sig,
    narrow_loop text [] = Some sig
    /\ (0 < count_sig buf sig <-> exists pre post, buf = pre ++ text ++ post).
Proof.
  intros Hlen Hne Hbytes.
  destruct (byte_chars_ok text Hbytes) as [Hok Hno].
  exists (map (fun c => (c, true)) text). split.
  - rewrite (narrow_loop_cells text Hok []), Hno. cbn [app]. f_equal.
    clear Hok Hno Hne. induction Hbytes as [|c text Hc _ IH]; [reflexivity|].
    cbn [map]. rewrite IH. destruct (byte_char c Hc) as [-> _]. reflexivity.
  - rewrite count_sig_exact by exact Hlen.
    assert (map (fun c : Z => (c, true)) text <> []) as Hsig
        by (destruct text; [congruence|discriminate]).
    pose proof (hits_window buf _ Hsig) as Hpos. split.
    + intros H. assert (0 < hits buf (map (fun c => (c, true)) text))%nat
        as Hk by lia.
      apply Hpos in Hk as (pre & window & post & E & Hc).
      apply covers_exact in Hc. subst window. exists pre, post. exact E.
    + intros (pre & post & E).
      assert (0 < hits buf (map (fun c => (c, true)) text))%nat; [|lia].
      apply Hpos. exists pre, text, post. split; [exact E|].
      apply covers_exact. reflexivity.
Qed.

Lemma narrow_literal_occurs_witness :
  Z.of_nat (length [0x00; 0x4D; 0x5A; 0x90]) <= INT_MAX
  /\ L "MZ" <> []
  /\ Forall (fun c => 0 <= c <= 255) (L "MZ")
  /\ exists sig,
      narrow_loop (L "MZ") [] = Some sig
      /\ (0 < count_sig [0x00; 0x4D; 0x5A; 0x90] sig
          <-> exists pre post,
              [0x00; 0x4D; 0x5A; 0x90] = pre ++ L "MZ" ++ post).
Proof.
  assert (Z.of_nat (length [0x00; 0x4D; 0x5A; 0x90]) <= INT_MAX) as H
      by (vm_compute; discriminate).
  assert (Forall (fun c => 0 <= c <= 255) (L "MZ")) as Hb.
  { repeat constructor; cbn; lia. }
  split; [exact H|]. split; [discriminate|]. split; [exact Hb|].
  apply (narrow_literal_occurs [0x00; 0x4D; 0x5A; 0x90] (L "MZ") H);
    [discriminate|exact Hb].
Defined.

End LiteralMore.

(** ** More on command-line parsing *)
Section ParseArgsMore.

Import ParseArgs.

(** A signature flag, with whatever value follows, is an entry of the
    command line. *)
Lemma sig_flag_entry (x : wstring) :
  Spec.is_sig_flag x = true ->
  exists mk : wstring -> Spec.SigArg,
    forall v, Spec.flag (mk v) = x /\ Spec.value (mk v) = v.
Proof.
  unfold Spec.is_sig_flag. cbn [existsb]. intros H.
  destruct (0 =? wcscmp x (L "--pattern")) eqn:E1.
  { apply wcscmp_eq in E1 as ->. exists Spec.Pattern. auto. }
  destruct (0 =? wcscmp x (L "--narrow")) eqn:E2.
  { apply wcscmp_eq in E2 as ->. exists (Spec.Literal Spec.Narrow). auto. }
  destruct (0 =? wcscmp x (L "--wide")) eqn:E3.
  { apply wcscmp_eq in E3 as ->. exists (Spec.Literal Spec.WideLE). auto. }
  destruct (0 =? wcscmp x (L "--widebe")) eqn:E4.
  { apply wcscmp_eq in E4 as ->. exists (Spec.Literal Spec.WideBE). auto. }
  discriminate H.
Qed.

Lemma step_dashes (args : Arguments) (x : wstring) :
  Spec.is_sig_flag x = false -> Spec.is_keyword x = true ->
  x = L "--" /\ step Type_ args x = Some (FileOnly, args).
Proof.
  unfold Spec.is_keyword. intros Hf Hk. rewrite Hf in Hk. cbn [orb] in Hk.
  pose proof Hk as Hx. apply wcscmp_eq in Hx. subst x. split; reflexivity.
Qed.

Lemma loop_Done (args : Arguments) (rest : list wstring) (st : State)
      (args' : Arguments) :
  loop Done args rest = Some (st, args') -> rest = [] /\ args' = args.
Proof.
  destruct rest as [|x rest]; [intros [= _ <-]; auto|discriminate].
Qed.

(** The command lines on which the loop ends in [Done]. *)
Lemma loop_Done_shape (n : nat) :
  forall argv args args',
    (length argv <= n)%nat ->
    loop Type_ args argv = Some (Done, args') ->
    exists specs new path,
      compile_all specs = Some new
      /\ args' = {| file := path; sigs := sigs args ++ new |}
      /\ ((argv = Spec.cmdline specs ++ [path] /\ Spec.is_keyword path = false)
          \/ argv = Spec.cmdline specs ++ [L "--"; path]).
Proof.
  induction n as [|n IH]; intros argv args args' Hlen H.
  { destruct argv; [discriminate H|cbn [length] in Hlen; lia]. }
  destruct argv as [|x argv]; [discriminate H|].
  destruct (Spec.is_sig_flag x) eqn:Hflag.
  - destruct (sig_flag_entry x Hflag) as [mk Hmk].
    destruct argv as [|v argv].
    + cbn [loop] in H.
      destruct (step_sig_flag args x Hflag) as (st & Hst & _ & _ & Hnd).
      rewrite Hst in H. injection H as -> _. congruence.
    + destruct (Hmk v) as [Hx Hv].
      assert (loop Type_ args (x :: v :: argv)
              = loop Type_ args
                  (Spec.flag (mk v) :: Spec.value (mk v) :: argv)) as Hentry
          by (rewrite Hx, Hv; reflexivity).
      rewrite Hentry, loop_sig_arg in H. clear Hentry.
      destruct (compile_arg (mk v)) as [sig|] eqn:Hc; [|discriminate].
      apply IH in H as (specs & new & path & Hall & -> & Hshape);
        [|cbn [length] in Hlen; lia].
      exists (mk v :: specs), (sig :: new), path.
      cbn [compile_all]. rewrite Hc, Hall.
      split; [reflexivity|]. split.
      * unfold push_sig. cbn [file sigs]. rewrite <- app_assoc. reflexivity.
      * change (Spec.cmdline (mk v :: specs))
          with (Spec.flag (mk v) :: Spec.value (mk v) :: Spec.cmdline specs).
        rewrite Hx, Hv.
        destruct Hshape as [[-> Hk]| ->]; [left; split; auto|right];
          reflexivity.
  - destruct (Spec.is_keyword x) eqn:Hkey.
    + destruct (step_dashes args x Hflag Hkey) as [-> Hstep].
      cbn [loop] in H. rewrite Hstep in H.
      destruct argv as [|path argv]; [discriminate H|].
      cbn [loop step] in H. apply loop_Done in H as [-> ->].
      exists [], [], path. split; [reflexivity|]. split.
      * unfold set_file. rewrite app_nil_r. reflexivity.
      * right. reflexivity.
    + cbn [loop] in H. rewrite (step_file args x Hkey) in H.
      apply loop_Done in H as [-> ->].
      exists [], [], x. split; [reflexivity|]. split.
      * unfold set_file. rewrite app_nil_r. reflexivity.
      * left. split; [reflexivity|exact Hkey].
Qed.

Lemma parse_args_cmdline_dashes (prog : wstring) (specs : list Spec.SigArg)
      (new : list Signature) (path : wstring) :
  specs <> [] -> compile_all specs = Some new ->
  parse_args (prog :: Spec.cmdline specs ++ [L "--"; path])
  = Some {| file := path; sigs := new |}.
Proof.
  intros Hne Hc. unfold parse_args. cbn [tl].
  rewrite loop_cmdline, Hc. cbn [file sigs app].
  change (loop Type_ ?a [L "--"; path]) with (Some (Done, set_file a path)).
  cbv beta iota. cbn [set_file sigs file].
  destruct new as [|sig new]; [|reflexivity].
  destruct specs as [|a specs]; [congruence|].
  cbn [compile_all] in Hc.
  destruct (compile_arg a); [|discriminate].
  destruct (compile_all specs); discriminate.
Qed.

(** The accepted command lines are those of the usage text and no others:
    [parse_args] succeeds exactly on a program name, one or more flag and
    value pairs that all compile, and then either one word that is no
    keyword, or [--] and one word of any kind; the result holds that word as
    the file and the signatures in the order of the pairs. *)
Theorem parse_args_grammar (argv : list wstring) (args : Arguments) :
  parse_args argv = Some args
  <-> exists prog specs new path,
      specs <> [] /\ compile_all specs = Some new
      /\ args = {| file := path; sigs := new |}
      /\ ((argv = prog :: Spec.cmdline specs ++ [path]
           /\ Spec.is_keyword path = false)
          \/ argv = prog :: Spec.cmdline specs ++ [L "--"; path]).
Proof.
  split.
  - unfold parse_args. intros H.
    destruct (loop Type_ _ (tl argv)) as [[st a]|] eqn:E; [|discriminate].
    destruct (sigs a) as [|sig0 sigs0] eqn:Hs; [discriminate H|].
    cbn [empty] in H. destruct st; try discriminate H.
    injection H as <-.
    destruct argv as [|prog argv]; [discriminate E|]. cbn [tl] in E.
    apply (loop_Done_shape (length argv)) in E
      as (specs & new & path & Hall & -> & Hshape); [|lia].
    cbn [sigs app] in *.
    exists prog, specs, new, path. split.
    + intros ->. cbn in Hall. injection Hall as <-. discriminate Hs.
    + split; [exact Hall|]. split; [reflexivity|].
      destruct Hshape as [[-> Hk]| ->]; auto.
  - intros (prog & specs & new & path & Hne & Hall & -> & [[-> Hk]| ->]).
    + apply parse_args_cmdline; assumption.
    + apply parse_args_cmdline_dashes; assumption.
Qed.

End ParseArgsMore.

(** ** More on the driver *)
Section DriverMore.

Import Driver.

Lemma count_char_append (a : ascii) (s t : string) :
  count_char a (s ++ t) = (count_char a s + count_char a t)%nat.
Proof.
  induction s as [|b s IH]; [reflexivity|].
  cbn [append count_char]. rewrite IH. lia.
Qed.

(** A number in decimal has neither a comma nor a newline in it. *)
Lemma uint_plain (d : Decimal.uint) :
  count_char "," (NilEmpty.string_of_uint d) = 0%nat
  /\ count_char "010" (NilEmpty.string_of_uint d) = 0%nat.
Proof.
  induction d as [|d [IH1 IH2]|d [IH1 IH2]|d [IH1 IH2]|d [IH1 IH2]
                  |d [IH1 IH2]|d [IH1 IH2]|d [IH1 IH2]|d [IH1 IH2]
                  |d [IH1 IH2]|d [IH1 IH2]];
    cbn [NilEmpty.string_of_uint count_char]; rewrite ?IH1, ?IH2;
    split; reflexivity.
Qed.

Lemma printf_d_plain (n : Z) :
  count_char "," (printf_d n) = 0%nat
  /\ count_char "010" (printf_d n) = 0%nat.
Proof.
  unfold printf_d, NilZero.string_of_int, NilZero.string_of_uint.
  destruct (Z.to_int n) as [d|d]; destruct d;
    try (split; reflexivity);
    cbn [count_char];
    match goal with
    | |- context [NilEmpty.string_of_uint ?u] =>
        destruct (uint_plain u) as [H1 H2]
    end;
    cbn [NilEmpty.string_of_uint count_char] in *;
    rewrite ?H1, ?H2; split; reflexivity.
Qed.

Lemma concat_commas (counts : list Z) :
  count_char "," (String.concat "," (map printf_d counts))
  = (length counts - 1)%nat
  /\ count_char "010" (String.concat "," (map printf_d counts)) = 0%nat.
Proof.
  induction counts as [|c counts [IH1 IH2]]; [split; reflexivity|].
  destruct (printf_d_plain c) as [Hc Hn].
  destruct counts as [|c' counts].
  - cbn [map String.concat length]. rewrite Hc, Hn. split; reflexivity.
  - change (String.concat "," (map printf_d (c :: c' :: counts)))
      with (printf_d c ++ "," ++ String.concat "," (map printf_d (c' :: counts)))%string.
    rewrite !count_char_append, Hc, Hn, IH1, IH2.
    change (count_char "," ",") with 1%nat.
    change (count_char "010" ",") with 0%nat.
    cbn [length]. split; lia.
Qed.

End DriverMore.

(** On a successful run the standard output is a single line: a body
    without a newline in it, holding one comma less than there are
    signatures, and then the newline; nothing goes to the standard error. *)
Theorem wmain_output_line (read_all : wstring -> option (list Z))
        (argv : list wstring) (args : Arguments) (data : list Z) :
  parse_args argv = Some args -> read_all (file args) = Some data ->
  exists body,
    Driver.stdout (wmain read_all argv)
    = (body ++ String "010" EmptyString)%string
    /\ count_char "010" body = 0%nat
    /\ count_char "," body = (length (sigs args) - 1)%nat
    /\ Driver.stderr (wmain read_all argv) = []
    /\ Driver.exit_code (wmain read_all argv) = 0.
Proof.
  intros Hp Hr. rewrite (wmain_success read_all argv args data Hp Hr).
  cbn [Driver.stdout Driver.stderr Driver.exit_code].
  unfold Spec.counts_line. eexists. split; [reflexivity|].
  destruct (concat_commas (map (count_sig data) (sigs args))) as [Hc Hn].
  rewrite length_map in Hc. auto.
Qed.

Lemma wmain_output_line_witness :
  exists body,
    Driver.stdout
      (wmain (fun _ => Some [0x41; 0x42; 0x41])
         [L "siggrep"; L "--pattern"; L "41"; L "--narrow"; L "AB";
          L "--wide"; L "A"; L "in.bin"])
    = (body ++ String "010" EmptyString)%string
    /\ count_char "010" body = 0%nat
    /\ count_char "," body = 2%nat.
Proof.
  destruct (wmain_output_line (fun _ => Some [0x41; 0x42; 0x41])
              [L "siggrep"; L "--pattern"; L "41"; L "--narrow"; L "AB";
               L "--wide"; L "A"; L "in.bin"]
              {| file := L "in.bin";
                 sigs := [[(0x41, true)]; [(0x41, true); (0x42, true)];
                          [(0x41, true); (0, true)]] |}
              [0x41; 0x42; 0x41] eq_refl eq_refl)
    as (body & H1 & H2 & H3 & _).
  exists body. split; [exact H1|]. split; [exact H2|]. exact H3.
Defined.

(** ** Normal form of patterns *)
Section PatternNormalForm.

Import ParseSig.

Lemma emplace_back_compiled (sig : Signature) (b : Z) (e : bool) :
  Forall compiled_cell sig -> (e = false -> b = 0) ->
  Forall compiled_cell (emplace_back sig b e).
Proof.
  intros H Hb. unfold emplace_back. apply Forall_app. split; [exact H|].
  constructor; [|constructor]. unfold compiled_cell, uint8. cbn [fst snd].
  destruct e; [apply Z.mod_pos_bound; lia|].
  rewrite Hb by reflexivity. reflexivity.
Qed.

Lemma advance_compiled (st : State) (n : Z) (sig : Signature) (c : wchar) :
  Forall compiled_cell sig ->
  match advance st n sig c with
  | None => True
  | Some (_, _, sig') => Forall compiled_cell sig'
  end.
Proof.
  intros H. destruct st; cbn [advance];
    repeat match goal with
           | |- context [if ?b then _ else _] => destruct b
           end;
    try exact I; try exact H;
    apply emplace_back_compiled; try exact H; try reflexivity; discriminate.
Qed.

Lemma loop_compiled (str : wstring) :
  forall st n sig,
    Forall compiled_cell sig ->
    match loop str st n sig with
    | None => True
    | Some (_, sig') => Forall compiled_cell sig'
    end.
Proof.
  induction str as [|c str IH]; intros st n sig H; [exact H|].
  rewrite loop_advance.
  pose proof (advance_compiled st n sig c H) as Ha.
  destruct (advance st n sig c) as [[[st' n'] sig']|]; [apply IH, Ha|exact I].
Qed.

Lemma parse_sig_compiled (text : wstring) :
  Forall compiled_cell (parse_sig text).
Proof.
  unfold parse_sig.
  pose proof (loop_compiled text AfterSpace 0 [] (Forall_nil _)) as H.
  destruct (loop text AfterSpace 0 []) as [[[] sig]|];
    try exact H; constructor.
Qed.

(** Every signature the compiler returns consists of bytes from 0 to 255
    and of wildcards holding zero, and it is the signature of its own
    canonical text: compiling, writing out and compiling again changes
    nothing. *)
Theorem parse_sig_normal_form (text : wstring) :
  Forall compiled_cell (parse_sig text)
  /\ (parse_sig text <> [] ->
      parse_sig (pattern_text (parse_sig text)) = parse_sig text).
Proof.
  split; [apply parse_sig_compiled|]. intros Hne.
  destruct (loop_pattern_text (parse_sig text) Hne (parse_sig_compiled text)
              0 []) as (st & Hst & E).
  exact (parse_sig_of_loop _ _ _ E Hst).
Qed.

(** A token of two hexadecimal digits, in either case, is the exact cell of
    the byte sixteen times the first digit plus the second. *)
Theorem parse_sig_byte_token (c1 c2 : wchar) (v1 v2 : Z) :
  Spec.hex_value c1 = Some v1 -> Spec.hex_value c2 = Some v2 ->
  parse_sig [c1; c2] = [(16 * v1 + v2, true)]
  /\ 0 <= 16 * v1 + v2 <= 255.
Proof.
  intros H1 H2.
  pose proof (hex_value_range _ _ H1) as R1.
  pose proof (hex_value_range _ _ H2) as R2.
  destruct (hex_digit_plain _ _ H1) as [Hs Hq].
  destruct (unhex_digit _ _ H1) as [U1 N1].
  destruct (unhex_digit _ _ H2) as [U2 N2].
  split; [|lia].
  unfold parse_sig. cbn [loop]. rewrite Hs, Hq, N1, N2, U1, U2. cbn [negb].
  unfold emplace_back. cbn [app].
  pose proof (byte_of_nibbles (16 * v1 + v2) ltac:(lia)) as Hb.
  replace ((16 * v1 + v2) / 16) with v1 in Hb
    by (apply (Z.div_unique _ 16 v1 v2); lia).
  replace ((16 * v1 + v2) mod 16) with v2 in Hb
    by (apply (Z.mod_unique _ 16 v1 v2); lia).
  rewrite Hb. reflexivity.
Qed.

Lemma parse_sig_byte_token_witness :
  Spec.hex_value (wc "c") = Some 12 /\ Spec.hex_value (wc "3") = Some 3
  /\ parse_sig (L "c3") = [(0xC3, true)].
Proof.
  split; [reflexivity|]. split; [reflexivity|].
  exact (proj1 (parse_sig_byte_token (wc "c") (wc "3") 12 3 eq_refl eq_refl)).
Defined.

End PatternNormalForm.

(** ** Tokens need white space between them *)
Section GluedTokens.

Import ParseSig.

Lemma loop_infix_fail (frag : wstring) :
  (forall st n sig rest, loop (frag ++ rest) st n sig = None) ->
  forall pre post st n sig, loop (pre ++ frag ++ post) st n sig = None.
Proof.
  intros H pre post st n sig.
  destruct (loop pre st n sig) as [[st' sig']|] eqn:E.
  - destruct (loop_split _ _ _ _ _ _ E) as [n' ->]. apply H.
  - apply loop_split_fail, E.
Qed.

(** Tokens that touch are refused: a text with three hexadecimal digits in
    a row, with a digit directly after a question mark, or with a question
    mark directly after a digit does not compile, whatever surrounds them. *)
Theorem parse_sig_glued_tokens (pre post : wstring) (d1 d2 d3 : wchar) :
  Spec.is_hex d1 = true -> Spec.is_hex d2 = true -> Spec.is_hex d3 = true ->
  parse_sig (pre ++ [d1; d2; d3] ++ post) = []
  /\ parse_sig (pre ++ [wc "?"; d1] ++ post) = []
  /\ parse_sig (pre ++ [d1; wc "?"] ++ post) = [].
Proof.
  unfold Spec.is_hex. intros H1 H2 H3.
  destruct (Spec.hex_value d1) as [v1|] eqn:V1; [|discriminate].
  destruct (Spec.hex_value d2) as [v2|] eqn:V2; [|discriminate].
  destruct (Spec.hex_value d3) as [v3|] eqn:V3; [|discriminate].
  destruct (hex_digit_plain _ _ V1) as [S1 Q1].
  destruct (hex_digit_plain _ _ V2) as [S2 Q2].
  destruct (hex_digit_plain _ _ V3) as [S3 Q3].
  destruct (unhex_digit _ _ V1) as [_ N1].
  destruct (unhex_digit _ _ V2) as [_ N2].
  destruct (unhex_digit _ _ V3) as [_ N3].
  assert (isspace (wc "?") = false) as Sq by reflexivity.
  assert ((unhex (wc "?") =? 0xFF) = true) as Nq by reflexivity.
  assert ((wc "?" =? wc "?") = true) as Qq by reflexivity.
  unfold parse_sig. repeat split.
  - rewrite loop_infix_fail; [reflexivity|].
    intros st n sig rest. destruct st; cbn [app loop];
      rewrite ?S1, ?Q1, ?N1, ?S2, ?Q2, ?N2, ?S3, ?Q3, ?N3; reflexivity.
  - rewrite loop_infix_fail; [reflexivity|].
    intros st n sig rest. destruct st; cbn [app loop];
      rewrite ?Sq, ?Qq, ?Nq, ?S1, ?Q1, ?N1; reflexivity.
  - rewrite loop_infix_fail; [reflexivity|].
    intros st n sig rest. destruct st; cbn [app loop];
      rewrite ?S1, ?Q1, ?N1, ?Sq, ?Qq, ?Nq; reflexivity.
Qed.

Lemma parse_sig_glued_tokens_witness :
  Spec.is_hex (wc "4") = true /\ Spec.is_hex (wc "1") = true
  /\ Spec.is_hex (wc "A") = true
  /\ parse_sig (L "90 " ++ [wc "4"; wc "1"; wc "A"] ++ L " 90") = [].
Proof.
  split; [reflexivity|]. split; [reflexivity|]. split; [reflexivity|].
  apply (parse_sig_glued_tokens (L "90 ") (L " 90") (wc "4") (wc "1") (wc "A"));
    reflexivity.
Defined.

End GluedTokens.
